(** * The Matrix bot component of Home Assistant

    A shallow embedding of [homeassistant/components/matrix/__init__.py]:
    the command tables built by [MatrixBot.__init__], the message handler
    [_handle_room_message], the room resolver [_join_or_get_room], the
    login sequence and the outbound [_send_message].

    Python objects are records, dictionaries are [gmap]s (or, where the
    iteration order matters, lists in insertion order), sets are [gset]s.
    Methods live in a state-and-exception monad over the bot's mutable
    fields and the effects it has on its collaborators (event bus, logger,
    token file, homeserver). *)

From Stdlib Require Import Ascii String ZArith Lia.
From stdpp Require Import base gmap strings list fin_maps.

Local Open Scope string_scope.
Local Open Scope list_scope.

(** ** Python values used by the component *)

(** [str.split(sep)] with an explicit one-character separator: every
    occurrence of [sep] cuts, so adjacent separators give empty pieces and
    the result is never the empty list. *)
Fixpoint split (sep : ascii) (s : string) : list string :=
  match s with
  | EmptyString => [EmptyString]
  | String c s' =>
      if Ascii.eqb c sep then EmptyString :: split sep s'
      else match split sep s' with
           | [] => [String c EmptyString]
           | w :: ws => String c w :: ws
           end
  end.

(** The slice [s[1:]]. *)
Definition slice_from_1 (s : string) : string :=
  match s with
  | EmptyString => EmptyString
  | String _ s' => s'
  end.

(** Truth value of a string: only the empty string is false. *)
Definition truthy (s : string) : bool :=
  match s with
  | EmptyString => false
  | String _ _ => true
  end.

(** What [Match.groupdict()] returns: the named groups with the text each
    one captured ([None] for a group that took no part in the match). *)
Definition groupdict := list (string * option string).

(** A compiled regular expression, seen through the one method the
    component calls on it: [Pattern.match(string)], which looks for a match
    starting at the first character of [string] and may stop before its
    end.  [None] is Python's [None] (no match). *)
Record Pattern := { re_match : string → option groupdict }.

(** An entry of the [commands] configuration: a dictionary with the keys
    [CONF_WORD], [CONF_EXPRESSION], [CONF_NAME] and [CONF_ROOMS].  The
    schema makes [name] mandatory and defaults [rooms] to the empty list;
    [word] and [expression] may each be absent. *)
Record Command := {
  conf_word : option string;
  conf_expression : option Pattern;
  conf_name : string;
  conf_rooms : list string
}.

(** [command.get(CONF_WORD)] as a condition. *)
Definition has_word (c : Command) : bool :=
  match conf_word c with
  | Some w => truthy w
  | None => false
  end.

(** The [args] of a fired event: the list of pieces for a word command,
    the group dictionary for an expression command. *)
Inductive Args :=
  | ArgsList (pieces : list string)
  | ArgsDict (groups : groupdict).

(** The payload fired on the bus under [EVENT_MATRIX_COMMAND]. *)
Record CommandEvent := {
  ev_command : string;
  ev_sender : string;
  ev_room : string;
  ev_args : Args
}.

(** A room event as the handler reads it: [event["content"]["msgtype"]],
    [event["sender"]] and [event["content"]["body"]]. *)
Record Event := {
  msgtype : string;
  sender : string;
  body : string
}.

(** ** The Matrix SDK objects *)

(** A [Room] of the SDK: its canonical id and the aliases known locally. *)
Record Room := {
  room_id : string;
  aliases : list string;
  listeners : list string
}.

(** A logged-in [MatrixClient]: its access token and its [rooms]
    dictionary, kept as the list of its values in insertion order (each
    room is stored under its own [room_id]). *)
Record MatrixClient := {
  token : string;
  rooms : list Room
}.

(** Requests the SDK sends to the homeserver. *)
Inductive Call :=
  | CallLoginToken (user tok : string)
  | CallLoginPassword (user password : string)
  | CallJoin (room_id_or_alias : string)
  | CallRoomState (room : string)
  | CallSendText (room message : string).

(** The exceptions that occur in the component. *)
Inductive exn :=
  | MatrixRequestError (code : Z) (content : string)
  | IndexError
  | KeyError
  | AttributeError.

(** The homeserver, as the answers it gives.  Every answer may depend on
    the requests made so far.  A rejected request carries the code and
    content of the [MatrixRequestError] the SDK raises for it, the one
    exception of the SDK that the component imports and handles; a
    connection that breaks down is outside this model.  A request for the
    state of a room answers with the aliases it lists, or with [None] when
    it lists none or is rejected. *)
Record Homeserver := {
  hs_login_token : list Call → string → string → (Z * string) + list Room;
  hs_login_password :
    list Call → string → string → (Z * string) + (string * list Room);
  hs_join : list Call → string → (Z * string) + string;
  hs_room_aliases : list Call → string → option (list string);
  hs_send_text : list Call → string → string → option (Z * string)
}.

(** Records of the logger at warning and error level. *)
Inductive LogRecord :=
  | LogTokenLoginFailed (code : Z) (content : string)
  | LogLoginFailed (code : Z) (content : string)
  | LogCouldNotJoin (room : string) (code : Z) (content : string)
  | LogUnableToDeliver (target_room : string) (code : Z) (content : string)
  | LogSetupFailed (code : Z) (content : string).

(** ** The bot and the world around it *)

(** The fields of [MatrixBot], followed by what the bot's collaborators
    have seen: events fired on the bus, log records, the mappings written
    to the session file, and the requests sent to the homeserver. *)
Record State := {
  _mx_id : string;
  _password : string;
  _auth_tokens : gmap string string;
  _listening_rooms : list string;
  _aliases_fetched_for : gset string;
  _word_commands : gmap string (gmap string Command);
  _expression_commands : gmap string (list Command);
  _client : option MatrixClient;
  bus : list CommandEvent;
  log : list LogRecord;
  session_file : list (gmap string string);
  requests : list Call
}.

Definition set_auth_tokens (v : gmap string string) (s : State) : State :=
  {| _mx_id := _mx_id s; _password := _password s; _auth_tokens := v;
     _listening_rooms := _listening_rooms s;
     _aliases_fetched_for := _aliases_fetched_for s;
     _word_commands := _word_commands s;
     _expression_commands := _expression_commands s;
     _client := _client s; bus := bus s; log := log s;
     session_file := session_file s; requests := requests s |}.

Definition set_aliases_fetched_for (v : gset string) (s : State) : State :=
  {| _mx_id := _mx_id s; _password := _password s;
     _auth_tokens := _auth_tokens s;
     _listening_rooms := _listening_rooms s;
     _aliases_fetched_for := v;
     _word_commands := _word_commands s;
     _expression_commands := _expression_commands s;
     _client := _client s; bus := bus s; log := log s;
     session_file := session_file s; requests := requests s |}.

Definition set_client (v : option MatrixClient) (s : State) : State :=
  {| _mx_id := _mx_id s; _password := _password s;
     _auth_tokens := _auth_tokens s;
     _listening_rooms := _listening_rooms s;
     _aliases_fetched_for := _aliases_fetched_for s;
     _word_commands := _word_commands s;
     _expression_commands := _expression_commands s;
     _client := v; bus := bus s; log := log s;
     session_file := session_file s; requests := requests s |}.

Definition set_bus (v : list CommandEvent) (s : State) : State :=
  {| _mx_id := _mx_id s; _password := _password s;
     _auth_tokens := _auth_tokens s;
     _listening_rooms := _listening_rooms s;
     _aliases_fetched_for := _aliases_fetched_for s;
     _word_commands := _word_commands s;
     _expression_commands := _expression_commands s;
     _client := _client s; bus := v; log := log s;
     session_file := session_file s; requests := requests s |}.

Definition set_log (v : list LogRecord) (s : State) : State :=
  {| _mx_id := _mx_id s; _password := _password s;
     _auth_tokens := _auth_tokens s;
     _listening_rooms := _listening_rooms s;
     _aliases_fetched_for := _aliases_fetched_for s;
     _word_commands := _word_commands s;
     _expression_commands := _expression_commands s;
     _client := _client s; bus := bus s; log := v;
     session_file := session_file s; requests := requests s |}.

Definition set_session_file (v : list (gmap string string)) (s : State)
  : State :=
  {| _mx_id := _mx_id s; _password := _password s;
     _auth_tokens := _auth_tokens s;
     _listening_rooms := _listening_rooms s;
     _aliases_fetched_for := _aliases_fetched_for s;
     _word_commands := _word_commands s;
     _expression_commands := _expression_commands s;
     _client := _client s; bus := bus s; log := log s;
     session_file := v; requests := requests s |}.

Definition set_requests (v : list Call) (s : State) : State :=
  {| _mx_id := _mx_id s; _password := _password s;
     _auth_tokens := _auth_tokens s;
     _listening_rooms := _listening_rooms s;
     _aliases_fetched_for := _aliases_fetched_for s;
     _word_commands := _word_commands s;
     _expression_commands := _expression_commands s;
     _client := _client s; bus := bus s; log := log s;
     session_file := session_file s; requests := v |}.

(** ** Methods: state and exceptions *)

Inductive result (A : Type) :=
  | Return (a : A)
  | Raise (e : exn).
Arguments Return {A} a.
Arguments Raise {A} e.

Definition M (A : Type) : Type := State → result A * State.

Definition raise {A} (e : exn) : M A := λ s, (Raise e, s).
Definition get : M State := λ s, (Return s, s).
Definition modify (f : State → State) : M unit := λ s, (Return tt, f s).

#[global] Instance M_ret : MRet M := λ A a s, (Return a, s).
#[global] Instance M_bind : MBind M := λ A B k m s,
  match m s with
  | (Return a, s') => k a s'
  | (Raise e, s') => (Raise e, s')
  end.

(** [try: m except MatrixRequestError as ex: h ex]: any other exception
    passes through. *)
Definition try_except_MatrixRequestError {A}
    (m : M A) (h : Z → string → M A) : M A :=
  λ s, match m s with
       | (Raise (MatrixRequestError code content), s') => h code content s'
       | r => r
       end.

(** [for x in xs: f x]. *)
Fixpoint for_each {A} (xs : list A) (f : A → M unit) : M unit :=
  match xs with
  | [] => mret tt
  | x :: xs' => f x;; for_each xs' f
  end.

Definition fire (e : CommandEvent) : M unit :=
  modify (λ s, set_bus (bus s ++ [e]) s).
Definition logger (r : LogRecord) : M unit :=
  modify (λ s, set_log (log s ++ [r]) s).
Definition request (c : Call) : M unit :=
  modify (λ s, set_requests (requests s ++ [c]) s).

(** ** [MatrixBot.__init__]: the command tables *)

(** [if not command.get(CONF_ROOMS): command[CONF_ROOMS] = listening_rooms] *)
Definition default_rooms (listening_rooms : list string) (command : Command)
  : Command :=
  match conf_rooms command with
  | [] => {| conf_word := conf_word command;
             conf_expression := conf_expression command;
             conf_name := conf_name command;
             conf_rooms := listening_rooms |}
  | _ :: _ => command
  end.

(** The body of the inner loop of the word branch:
    [self._word_commands[room_id][command[CONF_WORD]] = command], after
    creating [self._word_commands[room_id]] when it is missing. *)
Definition add_word_command (word : string) (command : Command)
    (word_commands : gmap string (gmap string Command)) (room_id : string)
  : gmap string (gmap string Command) :=
  <[room_id := <[word := command]> (default ∅ (word_commands !! room_id))]>
    word_commands.

(** The body of the inner loop of the expression branch:
    [self._expression_commands[room_id].append(command)]. *)
Definition add_expression_command (command : Command)
    (expression_commands : gmap string (list Command)) (room_id : string)
  : gmap string (list Command) :=
  <[room_id := default [] (expression_commands !! room_id) ++ [command]]>
    expression_commands.

(** One turn of [for command in commands]. *)
Definition add_command (listening_rooms : list string)
    (tables : gmap string (gmap string Command) * gmap string (list Command))
    (command0 : Command)
  : gmap string (gmap string Command) * gmap string (list Command) :=
  let command := default_rooms listening_rooms command0 in
  match conf_word command with
  | Some (String _ _ as word) =>
      (foldl (add_word_command word command) tables.1 (conf_rooms command),
       tables.2)
  | _ =>
      (tables.1,
       foldl (add_expression_command command) tables.2 (conf_rooms command))
  end.

Definition build_tables (listening_rooms : list string)
    (commands : list Command)
  : gmap string (gmap string Command) * gmap string (list Command) :=
  foldl (add_command listening_rooms) (∅, ∅) commands.

(** [_get_auth_tokens].  [stored] is what [load_json] (of
    [homeassistant.util.json], not among the sources) gives for the
    session file: the mapping, or [None] when it raises
    [HomeAssistantError], in which case the bot starts from the empty
    dictionary. *)
Definition _get_auth_tokens (stored : option (gmap string string))
  : gmap string string :=
  default ∅ stored.

(** The constructor.  [stored] is what the session file holds. *)
Definition __init__ (stored : option (gmap string string))
    (username password : string) (listening_rooms : list string)
    (commands : list Command) : State :=
  let tables := build_tables listening_rooms commands in
  {| _mx_id := username; _password := password;
     _auth_tokens := _get_auth_tokens stored;
     _listening_rooms := listening_rooms;
     _aliases_fetched_for := ∅;
     _word_commands := tables.1;
     _expression_commands := tables.2;
     _client := None; bus := []; log := [];
     session_file := []; requests := [] |}.

(** ** [_handle_room_message] *)

(** [self._word_commands.get(room_id, {}).get(cmd)] *)
Definition word_lookup (word_commands : gmap string (gmap string Command))
    (room_id cmd : string) : option Command :=
  default ∅ (word_commands !! room_id) !! cmd.

(** [self._expression_commands.get(room_id, [])] *)
Definition expression_lookup (expression_commands : gmap string (list Command))
    (room_id : string) : list Command :=
  default [] (expression_commands !! room_id).

(** The word-command part of the handler (the [if body[0] == "!"] block). *)
Definition handle_word_command (room_id : string) (event : Event) : M unit :=
  self ← get;
  match body event with
  | EmptyString => raise IndexError
  | String c _ =>
      if Ascii.eqb c "!" then
        match split " " (body event) with
        | [] => raise IndexError
        | piece0 :: pieces1 =>
            let cmd := slice_from_1 piece0 in
            match word_lookup (_word_commands self) room_id cmd with
            | Some command =>
                fire {| ev_command := conf_name command;
                        ev_sender := sender event;
                        ev_room := room_id;
                        ev_args := ArgsList pieces1 |}
            | None => mret tt
            end
        end
      else mret tt
  end.

(** One turn of the loop over the expression commands of the room. *)
Definition handle_expression_command (room_id : string) (event : Event)
    (command : Command) : M unit :=
  match conf_expression command with
  | None => raise KeyError
  | Some expression =>
      match re_match expression (body event) with
      | None => mret tt
      | Some groups =>
          fire {| ev_command := conf_name command;
                  ev_sender := sender event;
                  ev_room := room_id;
                  ev_args := ArgsDict groups |}
      end
  end.

Definition _handle_room_message (room_id : string) (event : Event)
  : M unit :=
  if decide (msgtype event ≠ "m.text") then mret tt
  else
    self ← get;
    if decide (sender event = _mx_id self) then mret tt
    else
      handle_word_command room_id event;;
      self ← get;
      for_each (expression_lookup (_expression_commands self) room_id)
               (handle_expression_command room_id event).

(** Modelled from the spec: [save_json] of [homeassistant.util.json],
    which is not among the sources.  It persists the full mapping to the
    session file; a failure is reported and does not reach the caller, so
    the call always returns. *)
Definition save_json (mapping : gmap string string) : M unit :=
  modify (λ s, set_session_file (session_file s ++ [mapping]) s).

(** ** The SDK calls the bot makes *)

Section Bot.

(** The homeserver the bot talks to. *)
Variable hs : Homeserver.

(** [self._client], which is [None] until [init_client] has logged in. *)
Definition the_client : M MatrixClient :=
  self ← get;
  match _client self with
  | Some client => mret client
  | None => raise AttributeError
  end.

(** [Room.update_aliases()]: asks the homeserver for the room state and
    replaces [aliases] when the answer lists aliases; a failed request is
    swallowed by the SDK and leaves the room as it was. *)
Definition update_aliases (reqs : list Call) (room : Room) : Room :=
  match hs_room_aliases hs reqs (room_id room) with
  | Some fetched => {| room_id := room_id room; aliases := fetched;
                       listeners := listeners room |}
  | None => room
  end.

(** [MatrixClient._mkroom]: [self.rooms[room_id] = Room(self, room_id)].
    An existing key keeps its place in the dictionary and gets the fresh
    room; a new key goes to the end. *)
Fixpoint _mkroom (room : Room) (rooms : list Room) : list Room :=
  match rooms with
  | [] => [room]
  | r :: rs =>
      if decide (room_id r = room_id room) then room :: rs
      else r :: _mkroom room rs
  end.

(** [MatrixClient.join_room]. *)
Definition join_room (room_id_or_alias : string) : M Room :=
  client ← the_client;
  self ← get;
  request (CallJoin room_id_or_alias);;
  match hs_join hs (requests self) room_id_or_alias with
  | inl (code, content) => raise (MatrixRequestError code content)
  | inr joined =>
      let room := {| room_id := joined; aliases := []; listeners := [] |} in
      modify (set_client (Some {| token := token client;
                                  rooms := _mkroom room (rooms client) |}));;
      mret room
  end.

(** [Room.send_text]. *)
Definition send_text (room : Room) (message : string) : M unit :=
  self ← get;
  request (CallSendText (room_id room) message);;
  match hs_send_text hs (requests self) (room_id room) message with
  | Some (code, content) => raise (MatrixRequestError code content)
  | None => mret tt
  end.

(** [room.add_listener(partial(self._handle_room_message, room_id), ...)]:
    the room object stored under [room_id room] gets a listener bound to
    [bound]. *)
Definition add_listener (room : Room) (bound : string) : M unit :=
  client ← the_client;
  modify (set_client (Some
    {| token := token client;
       rooms := (λ r, if decide (room_id r = room_id room)
                      then {| room_id := room_id r; aliases := aliases r;
                              listeners := listeners r ++ [bound] |}
                      else r) <$> rooms client |})).

(** ** [_join_or_get_room] *)

(** [rooms[room_id_or_alias]] when [room_id_or_alias in rooms]. *)
Definition rooms_get (key : string) (rooms : list Room) : option Room :=
  snd <$> list_find (λ r, room_id r = key) rooms.

(** The loop [for room in rooms.values()] with the pieces of state it
    touches: the rooms (whose aliases it may refresh), the set
    [_aliases_fetched_for] and the requests sent.  The last component is
    the room the loop returns from, if it does. *)
Fixpoint search_aliases (room_id_or_alias : string) (rooms : list Room)
    (fetched_for : gset string) (reqs : list Call)
  : list Room * gset string * list Call * option Room :=
  match rooms with
  | [] => ([], fetched_for, reqs, None)
  | room :: rest =>
      let '(room, fetched_for, reqs) :=
        if decide (room_id room ∉ fetched_for)
        then (update_aliases reqs room,
              fetched_for ∪ {[room_id room]},
              reqs ++ [CallRoomState (room_id room)])
        else (room, fetched_for, reqs) in
      if decide (room_id_or_alias ∈ aliases room)
      then (room :: rest, fetched_for, reqs, Some room)
      else
        let '(rest, fetched_for, reqs, found) :=
          search_aliases room_id_or_alias rest fetched_for reqs in
        (room :: rest, fetched_for, reqs, found)
  end.

Definition _join_or_get_room (room_id_or_alias : string) : M Room :=
  client ← the_client;
  match rooms_get room_id_or_alias (rooms client) with
  | Some room => mret room
  | None =>
      self ← get;
      let '(rooms', fetched_for, reqs, found) :=
        search_aliases room_id_or_alias (rooms client)
                       (_aliases_fetched_for self) (requests self) in
      modify (set_client (Some {| token := token client; rooms := rooms' |}));;
      modify (set_aliases_fetched_for fetched_for);;
      modify (set_requests reqs);;
      match found with
      | Some room => mret room
      | None => join_room room_id_or_alias
      end
  end.

(** ** [_join_rooms] *)

Definition _join_rooms : M unit :=
  self ← get;
  for_each (_listening_rooms self) (λ room_id,
    try_except_MatrixRequestError
      (room ← _join_or_get_room room_id;
       add_listener room room_id)
      (λ code content, logger (LogCouldNotJoin room_id code content))).

(** ** Logging in *)

Definition _store_auth_token (tok : string) : M unit :=
  modify (λ s, set_auth_tokens (<[_mx_id s := tok]> (_auth_tokens s)) s);;
  self ← get;
  save_json (_auth_tokens self).

Definition _login_by_token : M MatrixClient :=
  self ← get;
  match _auth_tokens self !! _mx_id self with
  | None => raise KeyError
  | Some tok =>
      request (CallLoginToken (_mx_id self) tok);;
      match hs_login_token hs (requests self) (_mx_id self) tok with
      | inl (code, content) => raise (MatrixRequestError code content)
      | inr synced => mret {| token := tok; rooms := synced |}
      end
  end.

Definition _login_by_password : M MatrixClient :=
  self ← get;
  request (CallLoginPassword (_mx_id self) (_password self));;
  match hs_login_password hs (requests self) (_mx_id self) (_password self)
  with
  | inl (code, content) => raise (MatrixRequestError code content)
  | inr (tok, synced) =>
      _store_auth_token tok;;
      mret {| token := tok; rooms := synced |}
  end.

Definition _login : M MatrixClient :=
  self ← get;
  client ←
    (if decide (is_Some (_auth_tokens self !! _mx_id self))
     then try_except_MatrixRequestError
            (c ← _login_by_token; mret (Some c))
            (λ code content,
               logger (LogTokenLoginFailed code content);; mret None)
     else mret None);
  match client with
  | Some c => mret c
  | None =>
      try_except_MatrixRequestError _login_by_password
        (λ code content,
           logger (LogLoginFailed code content);;
           raise (MatrixRequestError code content))
  end.

(** [init_client], up to the login; starting the listener thread and the
    subscriptions to the start and stop signals of the host leave no trace
    in the state modelled here. *)
Definition init_client : M unit :=
  self ← get;
  match _client self with
  | Some _ => mret tt
  | None =>
      client ← _login;
      modify (set_client (Some client))
  end.

(** [async_setup_entry] on a freshly built bot: [False] when the login
    raised [MatrixRequestError], [True] once the service is registered. *)
Definition async_setup_entry : M bool :=
  try_except_MatrixRequestError
    (init_client;; mret true)
    (λ code content, logger (LogSetupFailed code content);; mret false).

(** ** [_send_message] *)

Definition _send_message (message : string) (target_rooms : list string)
  : M unit :=
  for_each target_rooms (λ target_room,
    try_except_MatrixRequestError
      (room ← _join_or_get_room target_room;
       send_text room message)
      (λ code content,
         logger (LogUnableToDeliver target_room code content))).

Definition handle_send_message (message : string) (target : list string)
  : M unit :=
  _send_message message target.

End Bot.

(** ** Events and tables, as the properties read them *)

(** The event a word command fires for a message with the arguments
    [args], and the event an expression command fires for a message, if
    its expression matches. *)
Definition word_event (room_id : string) (event : Event) (command : Command)
    (args : list string) : CommandEvent :=
  {| ev_command := conf_name command; ev_sender := sender event;
     ev_room := room_id; ev_args := ArgsList args |}.

Definition expression_event (room_id : string) (event : Event)
    (command : Command) : option CommandEvent :=
  expression ← conf_expression command;
  groups ← re_match expression (body event);
  Some {| ev_command := conf_name command; ev_sender := sender event;
          ev_room := room_id; ev_args := ArgsDict groups |}.

(** An event that carries a group dictionary. *)
Definition is_expression_event (e : CommandEvent) : Prop :=
  ∃ groups, ev_args e = ArgsDict groups.

(** The command tables are the same in two states. *)
Definition same_tables (s s' : State) : Prop :=
  _word_commands s' = _word_commands s
  ∧ _expression_commands s' = _expression_commands s.

(** [command] is written to the word table of [room_id] under [word]:
    it has that word, the word is not empty, and the room is in its scope
    once the default scope is filled in. *)
Definition registers_word (listening_rooms : list string)
    (room_id word : string) (command : Command) : Prop :=
  conf_word command = Some word ∧ word ≠ EmptyString
  ∧ room_id ∈ conf_rooms (default_rooms listening_rooms command).

#[global] Instance registers_word_dec listening_rooms room_id word command :
  Decision (registers_word listening_rooms room_id word command).
Proof. unfold registers_word. apply _. Defined.

(** The entries a command appends to the expression list of [room_id]:
    one for each time the room occurs in its scope. *)
Definition expression_entries (listening_rooms : list string)
    (room_id : string) (command : Command) : list Command :=
  if has_word command then []
  else (λ _, default_rooms listening_rooms command)
         <$> filter (λ r, r = room_id)
                    (conf_rooms (default_rooms listening_rooms command)).

(** A command is in the tables of a room. *)
Definition registered (s : State) (room_id : string) (command : Command)
  : Prop :=
  (∃ word, word_lookup (_word_commands s) room_id word = Some command)
  ∨ command ∈ expression_lookup (_expression_commands s) room_id.

(** ** Requests, and what the resolver can reach *)

(** The rooms whose state (and with it their aliases) was requested, and
    the refs for which a join was requested, in the order of the
    requests. *)
Definition room_state_requests (reqs : list Call) : list string :=
  omap (λ c, match c with CallRoomState room => Some room | _ => None end)
       reqs.

Definition join_requests (reqs : list Call) : list string :=
  omap (λ c, match c with CallJoin ref => Some ref | _ => None end) reqs.

(** No room's aliases were requested twice, and every room whose aliases
    were requested is in [_aliases_fetched_for]. *)
Definition fetched_once (s : State) : Prop :=
  NoDup (room_state_requests (requests s))
  ∧ ∀ room, room ∈ room_state_requests (requests s) →
            room ∈ _aliases_fetched_for s.

(** From [s] to [s'] the aliases of some rooms were requested, each once
    and none of them fetched before, and exactly these rooms were added to
    [_aliases_fetched_for]. *)
Definition fetches_fresh (s s' : State) : Prop :=
  ∃ new,
    room_state_requests (requests s')
      = room_state_requests (requests s) ++ new
    ∧ NoDup new
    ∧ (∀ room, room ∈ new → room ∉ _aliases_fetched_for s)
    ∧ _aliases_fetched_for s' = _aliases_fetched_for s ∪ list_to_set new.

(** A method that only ever does so. *)
Definition keeps_fetching_fresh {A} (m : M A) : Prop :=
  ∀ s, fetches_fresh s (m s).2.

(** [ref] names [room]: it is its id or one of its aliases. *)
Definition answers_to (ref : string) (room : Room) : Prop :=
  room_id room = ref ∨ ref ∈ aliases room.

(** [ref] is already reachable: it is the id of a joined room, or an
    alias of a joined room whose aliases have been fetched. *)
Definition reachable (ref : string) (s : State) : Prop :=
  ∃ client, _client s = Some client
    ∧ (is_Some (rooms_get ref (rooms client))
       ∨ ∃ room, room ∈ rooms client
                 ∧ room_id room ∈ _aliases_fetched_for s
                 ∧ ref ∈ aliases room).

(** The state in which [_join_or_get_room] leaves the loop over the
    joined rooms. *)
Definition after_search (client : MatrixClient) (rooms' : list Room)
    (fetched_for : gset string) (reqs : list Call) (s : State) : State :=
  set_requests reqs
    (set_aliases_fetched_for fetched_for
       (set_client (Some {| token := token client; rooms := rooms' |}) s)).

(** The room object [join_room] makes for the id the homeserver gave. *)
Definition fresh_room (joined : string) : Room :=
  {| room_id := joined; aliases := []; listeners := [] |}.

(** ** The life of the bot *)

(** Resolving the same ref [n] times in a row, whatever each call
    returns or raises. *)
Fixpoint resolve_repeatedly (hs : Homeserver) (n : nat) (ref : string)
    (s : State) : State :=
  match n with
  | O => s
  | S n' => resolve_repeatedly hs n' ref (_join_or_get_room hs ref s).2
  end.

(** What the bot does after it is set up: the startup signal joins the
    listening rooms, the service sends messages, rooms deliver events. *)
Inductive Activity :=
  | Startup
  | SendMessage (message : string) (target : list string)
  | RoomMessage (room_id : string) (event : Event).

(** One activity, and a list of them in order, on the state of the bot. *)
Definition perform (hs : Homeserver) (s : State) (a : Activity) : State :=
  match a with
  | Startup => (_join_rooms hs s).2
  | SendMessage message target => (handle_send_message hs message target s).2
  | RoomMessage room_id event => (_handle_room_message room_id event s).2
  end.

Definition lifetime (hs : Homeserver) (activities : list Activity)
    (s : State) : State :=
  foldl (perform hs) s activities.

(** ** Three rules in the words of the specification *)

(** Python's whitespace characters. *)
Definition is_whitespace (c : ascii) : bool :=
  match nat_of_ascii c with
  | 9%nat | 10%nat | 11%nat | 12%nat | 13%nat | 32%nat => true
  | _ => false
  end.

(** Splitting on whitespace, as [str.split()] does it: the string is cut
    at every whitespace character and the empty pieces are dropped, so
    runs of whitespace separate the tokens and no token is empty. *)
Fixpoint whitespace_pieces (s : string) : list string :=
  match s with
  | EmptyString => [EmptyString]
  | String c s' =>
      if is_whitespace c then EmptyString :: whitespace_pieces s'
      else match whitespace_pieces s' with
           | [] => [String c EmptyString]
           | w :: ws => String c w :: ws
           end
  end.

Definition split_whitespace (s : string) : list string :=
  filter (λ w, w ≠ EmptyString) (whitespace_pieces s).

(** The word-command rule as the specification words it: the body is
    split on whitespace, the first token without its exclamation mark is
    the trigger, the remaining tokens are the arguments. *)
Definition word_rule_on_whitespace : Prop :=
  ∀ room_id event s command rest token0 tokens1,
    msgtype event = "m.text" →
    sender event ≠ _mx_id s →
    body event = String "!" rest →
    split_whitespace (body event) = token0 :: tokens1 →
    word_lookup (_word_commands s) room_id (slice_from_1 token0)
      = Some command →
    ∃ r fired,
      _handle_room_message room_id event s
        = (r, set_bus (bus s ++
                       word_event room_id event command tokens1 :: fired) s)
      ∧ Forall is_expression_event fired.

(** The scope rule as the specification words it: a command configured
    without rooms is in the tables of exactly the listening rooms. *)
Definition unscoped_command_everywhere : Prop :=
  ∀ stored username password listening_rooms commands command,
    command ∈ commands →
    conf_rooms command = [] →
    ∀ r, registered
           (__init__ stored username password listening_rooms commands) r
           (default_rooms listening_rooms command)
         ↔ r ∈ listening_rooms.

(** The last sentence of the resolver rule as the specification words
    it: repeated resolves of one ref request at most one join. *)
Definition repeated_resolves_join_once : Prop :=
  ∀ hs s ref n,
    is_Some (_client s) →
    (length (join_requests (requests (resolve_repeatedly hs n ref s)))
     ≤ length (join_requests (requests s)) + 1)%nat.

(** ** Example configurations *)

(** The text message [text] sent by [who]. *)
Definition text_from (who text : string) : Event :=
  {| msgtype := "m.text"; sender := who; body := text |}.

(** The word command [ping], named [Ping], for one room. *)
Definition ping_command : Command :=
  {| conf_word := Some "ping"; conf_expression := None;
     conf_name := "Ping"; conf_rooms := ["!room:hs"] |}.

(** Two more commands with the word [ping]: one without rooms of its own,
    one named [Pong] for the room of [ping_bot]. *)
Definition ping_anywhere : Command :=
  {| conf_word := Some "ping"; conf_expression := None;
     conf_name := "Ping"; conf_rooms := [] |}.

Definition pong_command : Command :=
  {| conf_word := Some "ping"; conf_expression := None;
     conf_name := "Pong"; conf_rooms := ["!room:hs"] |}.

(** A bot listening in one room, with the word command [ping]. *)
Definition ping_bot : State :=
  __init__ None "@bot:hs" "secret" ["!room:hs"] [ping_command].

(** A pattern that matches every string and has no named group, as the
    compiled [.*] does. *)
Definition match_anything : Pattern := {| re_match := λ _, Some [] |}.

(** An expression command without rooms of its own, and a bot listening
    in one room with this command. *)
Definition echo_command : Command :=
  {| conf_word := None; conf_expression := Some match_anything;
     conf_name := "Echo"; conf_rooms := [] |}.

Definition echo_bot : State :=
  __init__ None "@bot:hs" "secret" ["!room:hs"] [echo_command].

(** The compiled [status: (?P<state>\w+)], written out by hand: the
    literal text, then the longest run of word characters, which must not
    be empty and which the group [state] captures.  What follows the run
    is not looked at. *)
Definition is_word_char (c : ascii) : bool :=
  let n := nat_of_ascii c in
  ((48 <=? n) && (n <=? 57) || (65 <=? n) && (n <=? 90)
   || (97 <=? n) && (n <=? 122) || (n =? 95))%nat.

Fixpoint word_run (s : string) : string :=
  match s with
  | EmptyString => EmptyString
  | String c s' => if is_word_char c then String c (word_run s')
                   else EmptyString
  end.

Fixpoint after_literal (literal s : string) : option string :=
  match literal, s with
  | EmptyString, _ => Some s
  | String a literal', String b s' =>
      if Ascii.eqb a b then after_literal literal' s' else None
  | String _ _, EmptyString => None
  end.

Definition status_pattern : Pattern :=
  {| re_match := λ s,
       rest ← after_literal "status: " s;
       match word_run rest with
       | EmptyString => None
       | state => Some [("state", Some state)]
       end |}.

Definition status_command : Command :=
  {| conf_word := None; conf_expression := Some status_pattern;
     conf_name := "Status"; conf_rooms := ["!room:hs"] |}.

(** A bot with the expression commands [Status] and [Echo], in this
    order, and the word command [ping]. *)
Definition status_bot : State :=
  __init__ None "@bot:hs" "secret" ["!room:hs"]
           [status_command; ping_command; echo_command].

(** A bot built with a token in its session file. *)
Definition returning_bot : State :=
  __init__ (Some {[ "@bot:hs" := "token-0" ]}) "@bot:hs" "secret"
           ["!room:hs"] [ping_command].

(** A bot that has logged in and is in no room yet. *)
Definition fresh_bot : State :=
  set_client (Some {| token := "token-1"; rooms := [] |}) ping_bot.

(** ** Example homeservers *)

(** A homeserver that accepts every login, joins every ref into the room
    [!room:hs], accepts every message, and reports [listed] as the
    aliases of every room. *)
Definition homeserver_listing (listed : option (list string)) : Homeserver :=
  {| hs_login_token := λ _ _ _, inr [];
     hs_login_password := λ _ _ _, inr ("token-1", []);
     hs_join := λ _ _, inr "!room:hs";
     hs_room_aliases := λ _ _, listed;
     hs_send_text := λ _ _ _, None |}.

(** A homeserver that refuses to join [refused] and joins every other
    ref into the room [!room:hs]. *)
Definition homeserver_refusing (refused : string) : Homeserver :=
  {| hs_login_token := λ _ _ _, inr [];
     hs_login_password := λ _ _ _, inr ("token-1", []);
     hs_join := λ _ ref,
       if decide (ref = refused) then inl (403%Z, "M_FORBIDDEN")
       else inr "!room:hs";
     hs_room_aliases := λ _ _, None;
     hs_send_text := λ _ _ _, None |}.

(** A homeserver that rejects every token and answers a password login
    as [password_login] says. *)
Definition homeserver_without_tokens
    (password_login : (Z * string) + (string * list Room)) : Homeserver :=
  {| hs_login_token := λ _ _ _, inl (401%Z, "M_UNKNOWN_TOKEN");
     hs_login_password := λ _ _ _, password_login;
     hs_join := λ _ _, inr "!room:hs";
     hs_room_aliases := λ _ _, None;
     hs_send_text := λ _ _ _, None |}.

(** ** More of the component *)



(** The [matrix] section of the configuration, as [async_setup] reads
    it: a dictionary in which [rooms] and [commands] are always there
    (the schema gives them defaults) and the other keys may be missing. *)
Record MatrixConfig := {
  cfg_homeserver : option string;
  cfg_verify_ssl : option bool;
  cfg_username : option string;
  cfg_password : option string;
  cfg_rooms : list string;
  cfg_commands : list Command
}.

(** The dictionary that stands in when the configuration has no [matrix]
    section. *)
Definition no_matrix_section : MatrixConfig :=
  {| cfg_homeserver := None; cfg_verify_ssl := None;
     cfg_username := None; cfg_password := None;
     cfg_rooms := []; cfg_commands := [] |}.

(** The data handed to the import flow. *)
Record FlowData := {
  flow_homeserver : string;
  flow_username : string;
  flow_password : string;
  flow_verify_ssl : bool
}.

(** What [async_setup] leaves behind: [hass.data[DOMAIN]] and the import
    flow it started, if any. *)
Record HassData := {
  data_rooms : list string;
  data_commands : list Command;
  data_flow : option FlowData
}.

(** [async_setup].  [config] is what the configuration holds under
    [DOMAIN], if anything.  The result is what the function returns or
    raises, with what it has stored and started by then. *)
Definition async_setup (config : option MatrixConfig)
  : result bool * HassData :=
  let matrix_config := default no_matrix_section config in
  let stored := {| data_rooms := cfg_rooms matrix_config;
                   data_commands := cfg_commands matrix_config;
                   data_flow := None |} in
  match cfg_homeserver matrix_config with
  | None => (Return true, stored)
  | Some homeserver =>
      match cfg_username matrix_config, cfg_password matrix_config,
            cfg_verify_ssl matrix_config with
      | Some username, Some password, Some verify_ssl =>
          (Return true,
           {| data_rooms := cfg_rooms matrix_config;
              data_commands := cfg_commands matrix_config;
              data_flow :=
                Some {| flow_homeserver := homeserver;
                        flow_username := username;
                        flow_password := password;
                        flow_verify_ssl := verify_ssl |} |})
      | _, _, _ => (Raise KeyError, stored)
      end
  end.

(** Between two states nothing of what the bot was built with has
    changed: its identity, its password, its listening rooms and both
    command tables. *)
Definition same_configuration (s s' : State) : Prop :=
  _mx_id s' = _mx_id s ∧ _password s' = _password s
  ∧ _listening_rooms s' = _listening_rooms s
  ∧ _word_commands s' = _word_commands s
  ∧ _expression_commands s' = _expression_commands s.

(** Between two states no event was fired and neither the tokens nor the
    session file were touched. *)
Definition same_records (s s' : State) : Prop :=
  bus s' = bus s ∧ session_file s' = session_file s
  ∧ _auth_tokens s' = _auth_tokens s.

(** A method whose every run relates the state before to the state
    after. *)
Definition preserves {A} (R : State → State → Prop) (m : M A) : Prop :=
  ∀ s, R s (m s).2.

(** A command is usable: it has a word that is not empty, or it has an
    expression. *)
Definition usable (command : Command) : Prop :=
  has_word command = true ∨ is_Some (conf_expression command).

(** A command with an empty word and no expression, which the schema
    lets through. *)
Definition wordless_command : Command :=
  {| conf_word := Some ""; conf_expression := None;
     conf_name := "Wordless"; conf_rooms := ["!room:hs"] |}.

(** A bot whose expression list has the wordless command between [Echo]
    and [Status]. *)
Definition wordless_bot : State :=
  __init__ None "@bot:hs" "secret" ["!room:hs"]
           [echo_command; wordless_command; status_command].

(** A homeserver that accepts every token and every password. *)
Definition homeserver_accepting : Homeserver := homeserver_listing None.

(** A bot in the room [!room:hs], whose aliases have not been fetched. *)
Definition joined_bot : State :=
  set_client
    (Some {| token := "token-1";
             rooms := [{| room_id := "!room:hs"; aliases := [];
                          listeners := [] |}] |})
    ping_bot.

(** A word command [ping] for another room, and a bot that listens in
    both rooms and has both commands. *)
Definition ping_elsewhere : Command :=
  {| conf_word := Some "ping"; conf_expression := None;
     conf_name := "Elsewhere"; conf_rooms := ["!other:hs"] |}.

Definition two_room_bot : State :=
  __init__ None "@bot:hs" "secret" ["!room:hs"; "!other:hs"]
           [ping_command; ping_elsewhere].


(** A logged-in bot that listens in the room it knows as [#alias:hs]. *)
Definition alias_bot : State :=
  set_client (Some {| token := "token-1"; rooms := [] |})
    (__init__ None "@bot:hs" "secret" ["#alias:hs"] []).

(** A logged-in bot that listens in two rooms. *)
Definition closed_open_bot : State :=
  set_client (Some {| token := "token-1"; rooms := [] |})
    (__init__ None "@bot:hs" "secret" ["#closed:hs"; "#open:hs"] []).

(** * Properties *)

(** ** Running the monad *)

Ltac run :=
  unfold fire, logger, request in *;
  unfold mbind, M_bind, mret, M_ret, get, modify, raise,
    try_except_MatrixRequestError in *.

Lemma set_bus_same (s : State) : set_bus (bus s) s = s.
Proof. by destruct s. Qed.

Lemma set_bus_twice (v w : list CommandEvent) (s : State) :
  set_bus v (set_bus w s) = set_bus v s.
Proof. done. Qed.

(** ** The handler *)

(** The loop over the expression commands only ever adds events that
    carry a group dictionary, whether or not it runs to its end. *)
Lemma expression_loop_fires room_id event (commands : list Command) s :
  ∃ r fired,
    for_each commands (handle_expression_command room_id event) s
      = (r, set_bus (bus s ++ fired) s)
    ∧ Forall is_expression_event fired
    ∧ (commands = [] → r = Return tt ∧ fired = []).
Proof.
  revert s. induction commands as [|command commands IH]; intros s.
  - exists (Return tt), []. simpl. run.
    by rewrite app_nil_r, set_bus_same.
  - simpl. run. unfold handle_expression_command at 1.
    destruct (conf_expression command) as [expression|]; run.
    + destruct (re_match expression (body event)) as [groups|].
      * destruct (IH (set_bus (bus s ++
          [{| ev_command := conf_name command; ev_sender := sender event;
              ev_room := room_id; ev_args := ArgsDict groups |}]) s))
          as (r & fired & -> & Hall & _).
        eexists r, (_ :: fired). simpl. rewrite <- app_assoc. simpl.
        split; [done|]. split; [|done].
        constructor; [by eexists|done].
      * destruct (IH s) as (r & fired & -> & Hall & _).
        by exists r, fired.
    + exists (Raise KeyError), []. by rewrite app_nil_r, set_bus_same.
Qed.

(** When every entry carries an expression the loop runs to its end and
    fires, in the order of the list, one event for each entry whose
    expression matches. *)
Lemma expression_loop_complete room_id event (commands : list Command) s :
  Forall (λ c, is_Some (conf_expression c)) commands →
  for_each commands (handle_expression_command room_id event) s
    = (Return tt,
       set_bus (bus s ++ omap (expression_event room_id event) commands) s).
Proof.
  intros Hall. revert s.
  induction Hall as [|command commands [expression Hx] _ IH]; intros s.
  - simpl. run. by rewrite app_nil_r, set_bus_same.
  - simpl. run. unfold handle_expression_command at 1, expression_event at 1.
    rewrite Hx. simpl.
    destruct (re_match expression (body event)) as [groups|]; simpl; run.
    + rewrite IH. simpl. by rewrite <- app_assoc.
    + by rewrite IH.
Qed.

(** The word-command block on a body that starts with an exclamation
    mark. *)
Lemma handle_word_command_bang room_id event s rest piece0 pieces1 :
  body event = String "!" rest →
  split " " (body event) = piece0 :: pieces1 →
  handle_word_command room_id event s =
    match word_lookup (_word_commands s) room_id (slice_from_1 piece0) with
    | Some command =>
        (Return tt,
         set_bus (bus s ++ [word_event room_id event command pieces1]) s)
    | None => (Return tt, s)
    end.
Proof.
  intros Hbody Hsplit. unfold handle_word_command. run.
  rewrite Hsplit. rewrite Hbody. simpl.
  by destruct (word_lookup _ _ _).
Qed.

(** The word-command block on a non-empty body that starts otherwise. *)
Lemma handle_word_command_other room_id event s c rest :
  body event = String c rest → c ≠ "!"%char →
  handle_word_command room_id event s = (Return tt, s).
Proof.
  intros Hbody Hc. unfold handle_word_command. run. rewrite Hbody.
  destruct (Ascii.eqb_spec c "!"); [done|]. done.
Qed.

Lemma split_nonempty sep s : split sep s ≠ [].
Proof.
  destruct s as [|c s]; simpl; [done|].
  destruct (Ascii.eqb c sep); [done|]. by destruct (split sep s).
Qed.

(** On a text message of somebody else with a non-empty body, the handler
    is the word-command block followed by the loop. *)
Lemma handler_unfold room_id event s :
  msgtype event = "m.text" → sender event ≠ _mx_id s →
  _handle_room_message room_id event s =
    match handle_word_command room_id event s with
    | (Return _, s') =>
        for_each (expression_lookup (_expression_commands s') room_id)
                 (handle_expression_command room_id event) s'
    | (Raise e, s') => (Raise e, s')
    end.
Proof.
  intros Htext Hsender. unfold _handle_room_message.
  destruct (decide (msgtype event ≠ "m.text")); [done|]. run.
  destruct (decide (sender event = _mx_id s)); [done|].
  by destruct (handle_word_command room_id event s) as [[[]|e] s'].
Qed.

Lemma handler_skips_other_types room_id event s :
  msgtype event ≠ "m.text" →
  _handle_room_message room_id event s = (Return tt, s).
Proof.
  intros H. unfold _handle_room_message.
  by destruct (decide (msgtype event ≠ "m.text")).
Qed.

Lemma handler_skips_own_messages room_id event s :
  sender event = _mx_id s →
  _handle_room_message room_id event s = (Return tt, s).
Proof.
  intros H. unfold _handle_room_message.
  destruct (decide (msgtype event ≠ "m.text")); [done|]. run.
  by destruct (decide (sender event = _mx_id s)).
Qed.

(** C7: a message that is not text, or that the bot itself sent, fires no
    event: the handler returns at once and leaves everything as it was,
    whatever the body is. *)
Theorem handler_ignores_foreign_types_and_itself room_id event s :
  msgtype event ≠ "m.text" ∨ sender event = _mx_id s →
  _handle_room_message room_id event s = (Return tt, s).
Proof.
  intros [H|H].
  - by apply handler_skips_other_types.
  - by apply handler_skips_own_messages.
Qed.

Lemma handler_ignores_itself_example :
  _handle_room_message "!room:hs" (text_from "@bot:hs" "!ping") ping_bot
    = (Return tt, ping_bot).
Proof.
  apply (handler_ignores_foreign_types_and_itself
           "!room:hs" (text_from "@bot:hs" "!ping") ping_bot).
  right. reflexivity.
Defined.

(** C10: a text message of somebody else with an empty body makes the
    handler raise [IndexError] at [body[0]]; nothing is fired. *)
Theorem handler_empty_body_raises room_id event s :
  msgtype event = "m.text" →
  sender event ≠ _mx_id s →
  body event = "" →
  _handle_room_message room_id event s = (Raise IndexError, s).
Proof.
  intros Htext Hsender Hbody. rewrite handler_unfold by done.
  unfold handle_word_command. run. by rewrite Hbody.
Qed.

Lemma handler_empty_body_example :
  _handle_room_message "!room:hs" (text_from "@alice:hs" "") ping_bot
    = (Raise IndexError, ping_bot).
Proof.
  apply (handler_empty_body_raises
           "!room:hs" (text_from "@alice:hs" "") ping_bot);
    [reflexivity | discriminate | reflexivity].
Defined.

(** C1, as stated, fails: with two spaces after the trigger the handler
    passes an empty first argument, which splitting on whitespace would
    not produce. *)
Lemma word_rule_on_whitespace_fails : ¬ word_rule_on_whitespace.
Proof.
  intros Hrule.
  destruct (Hrule "!room:hs" (text_from "@alice:hs" "!ping  extra args")
              ping_bot ping_command "ping  extra args" "!ping"
              ["extra"; "args"])
    as (r & fired & Heq & _); try reflexivity; [discriminate|].
  apply (f_equal (λ x, bus x.2)) in Heq. vm_compute in Heq.
  discriminate Heq.
Qed.

(** C1, amended: the body is cut at every single space character.  The
    first piece without its exclamation mark is the trigger; when the
    table of the room has a command for it, the handler fires exactly one
    word event, named after that command and carrying the remaining
    pieces, and after it only events of expression commands. *)
Theorem word_command_fires room_id event s command rest piece0 pieces1 :
  msgtype event = "m.text" →
  sender event ≠ _mx_id s →
  body event = String "!" rest →
  split " " (body event) = piece0 :: pieces1 →
  word_lookup (_word_commands s) room_id (slice_from_1 piece0)
    = Some command →
  ∃ r fired,
    _handle_room_message room_id event s
      = (r, set_bus (bus s ++
                     word_event room_id event command pieces1 :: fired) s)
    ∧ Forall is_expression_event fired
    ∧ (expression_lookup (_expression_commands s) room_id = [] →
       r = Return tt ∧ fired = []).
Proof.
  intros Htext Hsender Hbody Hsplit Hlookup.
  rewrite handler_unfold by done.
  rewrite (handle_word_command_bang _ _ _ _ _ _ Hbody Hsplit), Hlookup.
  destruct (expression_loop_fires room_id event
              (expression_lookup (_expression_commands s) room_id)
              (set_bus (bus s ++ [word_event room_id event command pieces1])
                 s)) as (r & fired & Heq & Hall & Hnil).
  exists r, fired. simpl in *. rewrite Heq. simpl.
  by rewrite <- app_assoc.
Qed.

(** The body [!ping extra args] in a room with the word command [ping]
    named [Ping] fires exactly one event. *)
Lemma word_command_fires_ping :
  _handle_room_message "!room:hs" (text_from "@alice:hs" "!ping extra args")
      ping_bot
    = (Return tt,
       set_bus [{| ev_command := "Ping"; ev_sender := "@alice:hs";
                   ev_room := "!room:hs";
                   ev_args := ArgsList ["extra"; "args"] |}] ping_bot).
Proof.
  destruct (word_command_fires "!room:hs"
              (text_from "@alice:hs" "!ping extra args") ping_bot
              ping_command "ping extra args" "!ping" ["extra"; "args"])
    as (r & fired & Heq & _ & Hnil);
    [reflexivity | discriminate | reflexivity | reflexivity | reflexivity |].
  destruct Hnil as [-> ->]; [reflexivity|]. exact Heq.
Defined.

(** The expression commands on a message with a non-empty body: when
    every entry of the room's list carries an expression, the handler
    returns normally and fires, after at most one word event, one event
    for each entry whose expression matches the body from its start, in
    the order of the list. *)
Lemma expression_commands_fire room_id event s c rest :
  msgtype event = "m.text" →
  sender event ≠ _mx_id s →
  body event = String c rest →
  Forall (λ c, is_Some (conf_expression c))
         (expression_lookup (_expression_commands s) room_id) →
  ∃ word_fired,
    _handle_room_message room_id event s
      = (Return tt,
         set_bus (bus s ++ word_fired ++
                  omap (expression_event room_id event)
                       (expression_lookup (_expression_commands s) room_id))
                 s)
    ∧ (length word_fired ≤ 1)%nat
    ∧ Forall (λ e, ¬ is_expression_event e) word_fired.
Proof.
  intros Htext Hsender Hbody Hall. rewrite handler_unfold by done.
  destruct (decide (c = "!"%char)) as [->|Hc].
  - destruct (split " " (body event)) as [|piece0 pieces1] eqn:Hsplit;
      [by apply split_nonempty in Hsplit|].
    rewrite (handle_word_command_bang _ _ _ _ _ _ Hbody Hsplit).
    destruct (word_lookup _ _ _) as [command|].
    + exists [word_event room_id event command pieces1].
      rewrite expression_loop_complete by done. simpl.
      rewrite <- app_assoc. split; [done|]. split; [lia|].
      constructor; [|done]. by intros [groups ?].
    + exists []. rewrite expression_loop_complete by done.
      split; [done|]. split; [simpl; lia | done].
  - rewrite (handle_word_command_other _ _ _ _ _ Hbody Hc).
    exists []. rewrite expression_loop_complete by done.
    split; [done|]. split; [simpl; lia | done].
Qed.

(** Expression commands at work.  [Status] matches the start of the
    body and captures [ok]; the rest of the body is not part of the match.
    [Echo] matches as well and fires after it, in the order of the
    configuration.  A body that only contains the text of [Status] further
    on does not fire it.  A word command on the same message fires in
    addition. *)
Lemma expression_commands_fire_example :
  bus (_handle_room_message "!room:hs"
         (text_from "@alice:hs" "status: ok, all fine") status_bot).2
    = [ {| ev_command := "Status"; ev_sender := "@alice:hs";
           ev_room := "!room:hs";
           ev_args := ArgsDict [("state", Some "ok")] |};
        {| ev_command := "Echo"; ev_sender := "@alice:hs";
           ev_room := "!room:hs"; ev_args := ArgsDict [] |} ]
  ∧ bus (_handle_room_message "!room:hs"
           (text_from "@alice:hs" "the status: ok") status_bot).2
    = [ {| ev_command := "Echo"; ev_sender := "@alice:hs";
           ev_room := "!room:hs"; ev_args := ArgsDict [] |} ]
  ∧ bus (_handle_room_message "!room:hs"
           (text_from "@alice:hs" "!ping now") status_bot).2
    = [ {| ev_command := "Ping"; ev_sender := "@alice:hs";
           ev_room := "!room:hs"; ev_args := ArgsList ["now"] |};
        {| ev_command := "Echo"; ev_sender := "@alice:hs";
           ev_room := "!room:hs"; ev_args := ArgsDict [] |} ].
Proof. by vm_compute. Qed.

(** C3 at an empty body: the expression command of [echo_bot] matches
    every body, yet on the empty text message the handler raises
    [IndexError] before it reaches the expression commands and nothing is
    fired. *)
Theorem expression_commands_skipped_on_empty_body :
  expression_event "!room:hs" (text_from "@alice:hs" "")
      (default_rooms ["!room:hs"] echo_command)
    = Some {| ev_command := "Echo"; ev_sender := "@alice:hs";
              ev_room := "!room:hs"; ev_args := ArgsDict [] |}
  ∧ expression_lookup (_expression_commands echo_bot) "!room:hs"
    = [default_rooms ["!room:hs"] echo_command]
  ∧ _handle_room_message "!room:hs" (text_from "@alice:hs" "") echo_bot
    = (Raise IndexError, echo_bot).
Proof. by vm_compute. Qed.

(** Whatever the message, the handler changes nothing but the bus, to
    which it only appends. *)
Lemma handler_only_fires room_id event s :
  ∃ r fired,
    _handle_room_message room_id event s = (r, set_bus (bus s ++ fired) s).
Proof.
  destruct (decide (msgtype event ≠ "m.text")) as [Hty|Hty].
  { exists (Return tt), [].
    rewrite handler_skips_other_types by done.
    by rewrite app_nil_r, set_bus_same. }
  destruct (decide (sender event = _mx_id s)) as [Hown|Hown].
  { exists (Return tt), [].
    rewrite handler_skips_own_messages by done.
    by rewrite app_nil_r, set_bus_same. }
  apply dec_stable in Hty. rewrite handler_unfold by done.
  destruct (body event) as [|c rest] eqn:Hbody.
  { exists (Raise IndexError), []. unfold handle_word_command. run.
    by rewrite Hbody, app_nil_r, set_bus_same. }
  assert (∃ word_fired, handle_word_command room_id event s
            = (Return tt, set_bus (bus s ++ word_fired) s))
    as [word_fired ->].
  { destruct (decide (c = "!"%char)) as [->|Hc].
    - destruct (split " " (body event)) as [|piece0 pieces1] eqn:Hsplit;
        [by apply split_nonempty in Hsplit|].
      rewrite (handle_word_command_bang _ _ _ _ _ _ Hbody Hsplit).
      destruct (word_lookup _ _ _) as [command|]; [by eexists|].
      exists []. by rewrite app_nil_r, set_bus_same.
    - rewrite (handle_word_command_other _ _ _ _ _ Hbody Hc).
      exists []. by rewrite app_nil_r, set_bus_same. }
  destruct (expression_loop_fires room_id event
              (expression_lookup
                 (_expression_commands (set_bus (bus s ++ word_fired) s))
                 room_id)
              (set_bus (bus s ++ word_fired) s))
    as (r & fired & -> & _).
  exists r, (word_fired ++ fired). simpl. by rewrite app_assoc.
Qed.

(** ** The command tables *)

Lemma word_lookup_add word command word_commands room_id r w :
  word_lookup (add_word_command word command word_commands room_id) r w
  = if decide (room_id = r ∧ word = w) then Some command
    else word_lookup word_commands r w.
Proof.
  unfold word_lookup, add_word_command.
  destruct (decide (room_id = r)) as [->|Hr].
  - rewrite lookup_insert_eq. simpl.
    destruct (decide (word = w)) as [->|Hw].
    + rewrite lookup_insert_eq. by rewrite decide_True.
    + rewrite lookup_insert_ne by done. rewrite decide_False; [done|].
      by intros [_ ?].
  - rewrite lookup_insert_ne by done. rewrite decide_False; [done|].
    by intros [? _].
Qed.

Lemma word_lookup_add_rooms word command rooms word_commands r w :
  word_lookup (foldl (add_word_command word command) word_commands rooms) r w
  = if decide (r ∈ rooms ∧ word = w) then Some command
    else word_lookup word_commands r w.
Proof.
  revert word_commands.
  induction rooms as [|room rooms IH]; intros word_commands.
  - done.
  - cbn [foldl]. rewrite IH, word_lookup_add.
    destruct (decide (r ∈ rooms ∧ word = w)) as [[Hin ->]|Hno].
    + rewrite decide_True; [done|]. split; [by right|done].
    + destruct (decide (room = r ∧ word = w)) as [[-> ->]|Hno'].
      * rewrite decide_True; [done|]. split; [by left|done].
      * rewrite decide_False; [done|]. intros [Hin ->].
        apply elem_of_cons in Hin as [->|Hin]; [by apply Hno'|by apply Hno].
Qed.

Lemma expression_lookup_add command expression_commands room_id r :
  expression_lookup
    (add_expression_command command expression_commands room_id) r
  = expression_lookup expression_commands r
    ++ (if decide (room_id = r) then [command] else []).
Proof.
  unfold expression_lookup, add_expression_command.
  destruct (decide (room_id = r)) as [->|Hr].
  - by rewrite lookup_insert_eq.
  - rewrite lookup_insert_ne by done. by rewrite app_nil_r.
Qed.

Lemma expression_lookup_add_rooms command rooms expression_commands r :
  expression_lookup
    (foldl (add_expression_command command) expression_commands rooms) r
  = expression_lookup expression_commands r
    ++ ((λ _, command) <$> filter (λ r', r' = r) rooms).
Proof.
  revert expression_commands.
  induction rooms as [|room rooms IH]; intros expression_commands; simpl.
  - by rewrite app_nil_r.
  - rewrite IH, expression_lookup_add, <- app_assoc. f_equal.
    rewrite filter_cons. by destruct (decide (room = r)).
Qed.

Lemma default_rooms_word listening_rooms command :
  conf_word (default_rooms listening_rooms command) = conf_word command.
Proof. unfold default_rooms. by destruct (conf_rooms command). Qed.

(** One command's effect on what a lookup in the word table gives. *)
Lemma word_lookup_add_command listening_rooms tables command r w :
  word_lookup (add_command listening_rooms tables command).1 r w
  = if decide (registers_word listening_rooms r w command)
    then Some (default_rooms listening_rooms command)
    else word_lookup tables.1 r w.
Proof.
  unfold add_command. rewrite default_rooms_word.
  destruct (decide (registers_word listening_rooms r w command))
    as [(Hword & Hne & Hin)|Hno].
  - rewrite Hword. destruct w as [|a w]; [done|]. simpl.
    by rewrite word_lookup_add_rooms, decide_True.
  - destruct (conf_word command) as [[|a word]|] eqn:Hword; simpl;
      [done| |done].
    rewrite word_lookup_add_rooms, decide_False; [done|].
    intros [Hin <-]. by apply Hno.
Qed.

(** One command's effect on the expression list of a room. *)
Lemma expression_lookup_add_command listening_rooms tables command r :
  expression_lookup (add_command listening_rooms tables command).2 r
  = expression_lookup tables.2 r
    ++ expression_entries listening_rooms r command.
Proof.
  unfold add_command, expression_entries, has_word.
  rewrite default_rooms_word.
  destruct (conf_word command) as [[|a word]|]; simpl.
  - apply expression_lookup_add_rooms.
  - by rewrite app_nil_r.
  - apply expression_lookup_add_rooms.
Qed.

(** The word table after the constructor's loop: the last command of the
    list that writes the entry is the one found there. *)
Lemma word_lookup_build listening_rooms commands tables r w :
  word_lookup (foldl (add_command listening_rooms) tables commands).1 r w
  = match last (filter (registers_word listening_rooms r w) commands) with
    | Some command => Some (default_rooms listening_rooms command)
    | None => word_lookup tables.1 r w
    end.
Proof.
  induction commands as [|command commands IH] using rev_ind; [done|].
  rewrite foldl_app, filter_app. simpl.
  rewrite word_lookup_add_command, filter_cons, filter_nil.
  destruct (decide (registers_word listening_rooms r w command)).
  - by rewrite last_snoc.
  - by rewrite app_nil_r.
Qed.

(** The expression list of a room after the constructor's loop: the
    entries of the commands, in the order of the list. *)
Lemma expression_lookup_build listening_rooms commands tables r :
  expression_lookup (foldl (add_command listening_rooms) tables commands).2 r
  = expression_lookup tables.2 r
    ++ (commands ≫= expression_entries listening_rooms r).
Proof.
  revert tables.
  induction commands as [|command commands IH]; intros tables; simpl.
  - by rewrite app_nil_r.
  - by rewrite IH, expression_lookup_add_command, <- app_assoc.
Qed.

Lemma word_lookup_last_writer listening_rooms tables before command after
    r w :
  registers_word listening_rooms r w command →
  Forall (λ c, ¬ registers_word listening_rooms r w c) after →
  word_lookup
    (foldl (add_command listening_rooms) tables
           (before ++ command :: after)).1 r w
  = Some (default_rooms listening_rooms command).
Proof.
  intros Hreg Hafter. rewrite word_lookup_build.
  rewrite filter_app, filter_cons, decide_True by done.
  replace (filter (registers_word listening_rooms r w) after) with
    (@nil Command).
  - by rewrite last_snoc.
  - symmetry. induction Hafter as [|c after Hc _ IH]; [done|].
    by rewrite filter_cons, decide_False.
Qed.

(** C4: when two commands of the list write the same word into the table
    of the same room, and no command after the second does, the lookup
    finds the second one. *)
Theorem last_word_command_wins stored username password listening_rooms
    before command1 between command2 after r w :
  registers_word listening_rooms r w command1 →
  registers_word listening_rooms r w command2 →
  Forall (λ c, ¬ registers_word listening_rooms r w c) after →
  word_lookup
    (_word_commands
       (__init__ stored username password listening_rooms
          (before ++ command1 :: between ++ command2 :: after))) r w
  = Some (default_rooms listening_rooms command2).
Proof.
  intros _ Hreg Hafter. simpl. unfold build_tables.
  replace (before ++ command1 :: between ++ command2 :: after)
    with ((before ++ command1 :: between) ++ command2 :: after)
    by (by rewrite <- app_assoc).
  by apply word_lookup_last_writer.
Qed.

Lemma last_word_command_wins_example :
  word_lookup
    (_word_commands
       (__init__ None "@bot:hs" "secret" ["!room:hs"]
          ([] ++ ping_command :: [] ++ pong_command :: [])))
    "!room:hs" "ping"
  = Some (default_rooms ["!room:hs"] pong_command).
Proof.
  apply (last_word_command_wins None "@bot:hs" "secret" ["!room:hs"]
           [] ping_command [] pong_command [] "!room:hs" "ping").
  - split; [reflexivity|]. split; [discriminate|]. simpl. left.
  - split; [reflexivity|]. split; [discriminate|]. simpl. left.
  - constructor.
Defined.

Lemma word_lookup_empty r w :
  word_lookup (∅ : gmap string (gmap string Command)) r w = None.
Proof. unfold word_lookup. by rewrite lookup_empty. Qed.

Lemma default_rooms_scope listening_rooms command :
  conf_rooms command = [] →
  conf_rooms (default_rooms listening_rooms command) = listening_rooms.
Proof. intros H. unfold default_rooms. by rewrite H. Qed.

(** A command found in the tables of a room has that room in its scope. *)
Lemma registered_in_scope stored username password listening_rooms commands
    r scoped :
  registered (__init__ stored username password listening_rooms commands)
             r scoped →
  r ∈ conf_rooms scoped.
Proof.
  intros [[word Hword]|Hexpr]; simpl in *; unfold build_tables in *.
  - rewrite word_lookup_build in Hword.
    destruct (last _) as [writer|] eqn:Hlast.
    + apply last_Some_elem_of, list_elem_of_filter in Hlast
        as [(_ & _ & Hin) _].
      by injection Hword as <-.
    + by rewrite word_lookup_empty in Hword.
  - rewrite expression_lookup_build in Hexpr.
    apply list_elem_of_bind in Hexpr as (writer & Hentry & _).
    unfold expression_entries in Hentry.
    destruct (has_word writer); [by apply elem_of_nil in Hentry|].
    apply list_elem_of_fmap in Hentry as (r' & -> & Hr').
    by apply list_elem_of_filter in Hr' as [-> Hin].
Qed.

(** C5, as stated, fails: a later command with the same word takes the
    place of the unscoped one in the table of the room they share. *)
Lemma unscoped_command_everywhere_fails : ¬ unscoped_command_everywhere.
Proof.
  intros Hrule.
  destruct (Hrule None "@bot:hs" "secret" ["!room:hs"]
              [ping_anywhere; pong_command] ping_anywhere) with "!room:hs"
    as [_ Hreg]; [by left|done|].
  destruct Hreg as [[word Hword]|Hexpr]; [by left| |].
  - unfold __init__ in Hword. cbn [_word_commands] in Hword.
    unfold build_tables in Hword. cbn [foldl] in Hword.
    rewrite !word_lookup_add_command in Hword.
    destruct (decide (registers_word _ _ word pong_command))
      as [_|Hpong]; [discriminate Hword|].
    destruct (decide (registers_word _ _ word ping_anywhere))
      as [(Hping & Hne & _)|_].
    + apply Hpong. split; [exact Hping|]. split; [done|]. by left.
    + simpl in Hword. by rewrite word_lookup_empty in Hword.
  - vm_compute in Hexpr. by apply elem_of_nil in Hexpr.
Qed.

(** C5, amended: a command configured without rooms gets the listening
    rooms as its scope when the bot is built.  It is found in the tables
    of listening rooms only; as an expression command it is in the list
    of every listening room; as a word command it is the entry for its
    word in every listening room for which no later command of the list
    writes that word.  Handling a message leaves both tables as they
    were built. *)
Theorem unscoped_command_scope stored username password listening_rooms
    before command after r :
  conf_rooms command = [] →
  let s := __init__ stored username password listening_rooms
             (before ++ command :: after) in
  let scoped := default_rooms listening_rooms command in
  conf_rooms scoped = listening_rooms
  ∧ (registered s r scoped → r ∈ listening_rooms)
  ∧ (r ∈ listening_rooms → has_word command = false →
     scoped ∈ expression_lookup (_expression_commands s) r)
  ∧ (r ∈ listening_rooms →
     ∀ w, conf_word command = Some w → w ≠ "" →
          Forall (λ c, ¬ registers_word listening_rooms r w c) after →
          word_lookup (_word_commands s) r w = Some scoped)
  ∧ (∀ room_id event,
       same_tables s (_handle_room_message room_id event s).2).
Proof.
  intros Hrooms s scoped.
  pose proof (default_rooms_scope listening_rooms command Hrooms) as Hscope.
  split; [done|]. split; [|split; [|split]].
  - intros Hreg. apply registered_in_scope in Hreg. by rewrite <- Hscope.
  - intros Hin Hword. subst s. simpl. unfold build_tables.
    rewrite expression_lookup_build. simpl.
    apply list_elem_of_bind. exists command. split; [|set_solver].
    unfold expression_entries. rewrite Hword.
    apply list_elem_of_fmap. exists r. split; [done|].
    apply list_elem_of_filter. by rewrite Hscope.
  - intros Hin w Hword Hne Hafter. subst s. simpl. unfold build_tables.
    apply word_lookup_last_writer; [|done].
    split; [done|]. split; [done|]. by rewrite Hscope.
  - intros room_id event.
    destruct (handler_only_fires room_id event s) as (res & fired & ->).
    by split.
Qed.

Lemma unscoped_command_scope_example :
  let s := __init__ None "@bot:hs" "secret" ["!room:hs"]
             ([] ++ ping_anywhere :: []) in
  let scoped := default_rooms ["!room:hs"] ping_anywhere in
  conf_rooms scoped = ["!room:hs"]
  ∧ (registered s "!room:hs" scoped → "!room:hs" ∈ ["!room:hs"])
  ∧ ("!room:hs" ∈ ["!room:hs"] → has_word ping_anywhere = false →
     scoped ∈ expression_lookup (_expression_commands s) "!room:hs")
  ∧ ("!room:hs" ∈ ["!room:hs"] →
     ∀ w, conf_word ping_anywhere = Some w → w ≠ "" →
          Forall (λ c, ¬ registers_word ["!room:hs"] "!room:hs" w c) [] →
          word_lookup (_word_commands s) "!room:hs" w = Some scoped)
  ∧ (∀ room_id event,
       same_tables s (_handle_room_message room_id event s).2).
Proof.
  apply (unscoped_command_scope None "@bot:hs" "secret" ["!room:hs"]
           [] ping_anywhere [] "!room:hs").
  reflexivity.
Defined.

(** ** The resolver *)

Lemma room_state_requests_app reqs more :
  room_state_requests (reqs ++ more)
  = room_state_requests reqs ++ room_state_requests more.
Proof. apply omap_app. Qed.

Lemma join_requests_app reqs more :
  join_requests (reqs ++ more) = join_requests reqs ++ join_requests more.
Proof. apply omap_app. Qed.

Lemma room_state_requests_fetches (new : list string) :
  room_state_requests (CallRoomState <$> new) = new.
Proof.
  unfold room_state_requests.
  induction new as [|r new IH]; [done|]. simpl. by f_equal.
Qed.

Lemma join_requests_fetches (new : list string) :
  join_requests (CallRoomState <$> new) = [].
Proof. by induction new. Qed.

(** What the loop over the joined rooms does: it requests the aliases of
    rooms not fetched before, each once, and records them as fetched;
    rooms fetched before stay as they are; it returns a room having the
    ref among its aliases, or else no room has it. *)
Lemma search_aliases_spec hs ref (joined : list Room) fetched_for reqs :
  ∃ rooms' new found,
    search_aliases hs ref joined fetched_for reqs
      = (rooms', fetched_for ∪ list_to_set new,
         reqs ++ (CallRoomState <$> new), found)
    ∧ NoDup new
    ∧ (∀ room, room ∈ new → room ∉ fetched_for)
    ∧ room_id <$> rooms' = room_id <$> joined
    ∧ (∀ room, room ∈ joined → room_id room ∈ fetched_for → room ∈ rooms')
    ∧ match found with
      | Some room => room ∈ rooms' ∧ ref ∈ aliases room
      | None =>
          (∀ room, room ∈ rooms' → ref ∉ aliases room)
          ∧ (∀ room, room ∈ joined →
                     room_id room ∈ fetched_for ∪ list_to_set new)
      end.
Proof.
  revert fetched_for reqs.
  induction joined as [|room rest IH]; intros fetched_for reqs.
  { exists [], [], None. simpl. rewrite app_nil_r, (right_id_L ∅ (∪)).
    split; [done|]. split; [constructor|].
    split; [by intros ? ?%elem_of_nil|]. split; [done|].
    split; [by intros ? ?%elem_of_nil|].
    split; by intros ? ?%elem_of_nil. }
  cbn [search_aliases]. destruct (decide (room_id room ∉ fetched_for)) as [Hnew|Hold].
  - destruct (decide (ref ∈ aliases (update_aliases hs reqs room)))
      as [Hhit|Hmiss].
    + exists (update_aliases hs reqs room :: rest), [room_id room],
        (Some (update_aliases hs reqs room)).
      simpl. rewrite (right_id_L ∅ (∪)).
      split; [done|]. split; [apply NoDup_singleton|].
      split; [by intros ? ->%list_elem_of_singleton|].
      split; [f_equal; unfold update_aliases; by destruct hs_room_aliases|].
      split; [|split; [by left|done]].
      intros r [->|Hin]%elem_of_cons Hr; [done|by right].
    + destruct (IH (fetched_for ∪ {[room_id room]})
                  (reqs ++ [CallRoomState (room_id room)]))
        as (rooms' & new & found & -> & Hnd & Hfresh & Hids & Hkeep & Hfound).
      exists (update_aliases hs reqs room :: rooms'), (room_id room :: new),
        found.
      rewrite list_to_set_cons, fmap_cons, <- app_assoc, (assoc_L (∪)).
      split; [done|]. split.
      { constructor; [|done]. intros Hin. apply Hfresh in Hin. set_solver. }
      split.
      { intros r [->|Hin]%elem_of_cons; [done|].
        apply Hfresh in Hin. set_solver. }
      split.
      { rewrite !fmap_cons, Hids. f_equal. unfold update_aliases.
        by destruct hs_room_aliases. }
      split.
      { intros r [->|Hin]%elem_of_cons Hr; [done|].
        right. apply Hkeep; [done|set_solver]. }
      destruct found as [hit|].
      * destruct Hfound. split; [by right|done].
      * destruct Hfound as [Hnone Hall]. split.
        -- by intros r [->|Hin]%elem_of_cons; [|apply Hnone].
        -- intros r [->|Hin]%elem_of_cons; [set_solver|].
           apply Hall in Hin. set_solver.
  - apply dec_stable in Hold.
    destruct (decide (ref ∈ aliases room)) as [Hhit|Hmiss].
    + exists (room :: rest), [], (Some room).
      simpl. rewrite app_nil_r, (right_id_L ∅ (∪)).
      split; [done|]. split; [constructor|].
      split; [by intros ? ?%elem_of_nil|].
      split; [done|]. split; [done|]. split; [by left|done].
    + destruct (IH fetched_for reqs)
        as (rooms' & new & found & -> & Hnd & Hfresh & Hids & Hkeep & Hfound).
      exists (room :: rooms'), new, found.
      split; [done|]. split; [done|]. split; [done|].
      split; [by rewrite !fmap_cons, Hids|].
      split.
      { intros r [->|Hin]%elem_of_cons Hr; [by left|].
        right. by apply Hkeep. }
      destruct found as [hit|].
      * destruct Hfound. split; [by right|done].
      * destruct Hfound as [Hnone Hall]. split.
        -- by intros r [->|Hin]%elem_of_cons; [|apply Hnone].
        -- intros r [->|Hin]%elem_of_cons; [set_solver|by apply Hall].
Qed.

Lemma resolve_unfold hs ref s client :
  _client s = Some client →
  _join_or_get_room hs ref s =
    match rooms_get ref (rooms client) with
    | Some room => (Return room, s)
    | None =>
        let '(rooms', fetched_for, reqs, found) :=
          search_aliases hs ref (rooms client) (_aliases_fetched_for s)
                         (requests s) in
        let s' := after_search client rooms' fetched_for reqs s in
        match found with
        | Some room => (Return room, s')
        | None =>
            match hs_join hs reqs ref with
            | inl (code, content) =>
                (Raise (MatrixRequestError code content),
                 set_requests (reqs ++ [CallJoin ref]) s')
            | inr joined =>
                (Return (fresh_room joined),
                 set_client
                   (Some {| token := token client;
                            rooms := _mkroom (fresh_room joined) rooms' |})
                   (set_requests (reqs ++ [CallJoin ref]) s'))
            end
        end
    end.
Proof.
  intros Hclient. unfold _join_or_get_room, the_client. run.
  rewrite Hclient.
  destruct (rooms_get ref (rooms client)) as [room|]; [done|].
  destruct (search_aliases _ _ _ _ _) as [[[rooms' fetched_for] reqs] found].
  simpl. destruct found as [room|]; [done|].
  unfold join_room, the_client. run. simpl.
  destruct (hs_join hs reqs ref) as [[code content]|joined]; done.
Qed.

Lemma rooms_get_Some key (joined : list Room) room :
  rooms_get key joined = Some room → room ∈ joined ∧ room_id room = key.
Proof.
  unfold rooms_get. intros H.
  destruct (list_find _ joined) as [[i r]|] eqn:Hfind; [|done].
  injection H as <-. apply list_find_Some in Hfind as (Hi & Hr & _).
  split; [by eapply list_elem_of_lookup_2|done].
Qed.

Lemma rooms_get_None key (joined : list Room) :
  rooms_get key joined = None → ∀ room, room ∈ joined → room_id room ≠ key.
Proof.
  unfold rooms_get. intros H.
  destruct (list_find _ joined) as [[i r]|] eqn:Hfind; [done|].
  apply list_find_None in Hfind. by apply Forall_forall.
Qed.

Lemma _mkroom_elem room (joined : list Room) : room ∈ _mkroom room joined.
Proof.
  induction joined as [|r joined IH]; simpl; [by left|].
  destruct (decide (room_id r = room_id room)); [by left|by right].
Qed.

Lemma _mkroom_new room (joined : list Room) :
  (∀ r, r ∈ joined → room_id r ≠ room_id room) →
  _mkroom room joined = joined ++ [room].
Proof.
  induction joined as [|r joined IH]; intros Hnew; simpl; [done|].
  rewrite decide_False by (apply Hnew; by left).
  rewrite IH; [done|]. intros r' Hr'. apply Hnew. by right.
Qed.

(** Everything one call of the resolver does. *)
Lemma resolve_spec hs ref s client :
  _client s = Some client →
  ∃ res s' client' new joins,
    _join_or_get_room hs ref s = (res, s')
    ∧ _client s' = Some client'
    ∧ requests s'
      = requests s ++ (CallRoomState <$> new) ++ (CallJoin <$> joins)
    ∧ _aliases_fetched_for s' = _aliases_fetched_for s ∪ list_to_set new
    ∧ NoDup new
    ∧ (∀ room, room ∈ new → room ∉ _aliases_fetched_for s)
    ∧ (log s' = log s ∧ bus s' = bus s ∧ session_file s' = session_file s
       ∧ same_tables s s')
    ∧ match res with
      | Return room => room ∈ rooms client'
      | Raise e => ∃ code content, e = MatrixRequestError code content
      end
    ∧ ((joins = []
        ∧ (∃ room, res = Return room ∧ answers_to ref room)
        ∧ (∀ room, room ∈ rooms client →
                   room_id room ∈ _aliases_fetched_for s →
                   room ∈ rooms client')
        ∧ (∀ room, rooms_get ref (rooms client) = Some room →
                   res = Return room ∧ s' = s))
       ∨ (joins = [ref]
          ∧ rooms_get ref (rooms client) = None
          ∧ ∃ rooms',
              search_aliases hs ref (rooms client) (_aliases_fetched_for s)
                             (requests s)
              = (rooms', _aliases_fetched_for s',
                 requests s ++ (CallRoomState <$> new), None)
              ∧ (∀ joined, res = Return (fresh_room joined) →
                   rooms client' = _mkroom (fresh_room joined) rooms')
              ∧ (∀ room, room ∈ rooms' → ¬ answers_to ref room)
              ∧ (∀ room, room ∈ rooms' →
                         room_id room ∈ _aliases_fetched_for s')
              ∧ (∀ room, room ∈ rooms client →
                         room_id room ∈ _aliases_fetched_for s →
                         ¬ answers_to ref room))).
Proof.
  intros Hclient. rewrite (resolve_unfold _ _ _ _ Hclient).
  destruct (rooms_get ref (rooms client)) as [room|] eqn:Hget.
  { pose proof Hget as Hget'. apply rooms_get_Some in Hget as [Hin Hid].
    exists (Return room), s, client, [], []. simpl.
    rewrite !app_nil_r, (right_id_L ∅ (∪)).
    do 4 (split; [done|]). split; [constructor|].
    split; [by intros ? ?%elem_of_nil|]. split; [done|].
    split; [done|]. left. split; [done|].
    split; [exists room; split; [done|by left]|]. split; [done|].
    by intros room0 [= ->]. }
  pose proof (rooms_get_None _ _ Hget) as Hids.
  destruct (search_aliases_spec hs ref (rooms client) (_aliases_fetched_for s)
              (requests s))
    as (rooms' & new & found & Hsearch & Hnd & Hfresh & Hsame & Hkeep & Hfound).
  rewrite Hsearch. simpl.
  destruct found as [room|].
  { destruct Hfound as [Hin Hhit].
    eexists (Return room), _, _, new, []. simpl. rewrite app_nil_r.
    do 4 (split; [done|]). do 3 (split; [done|]).
    split; [done|]. left. split; [done|].
    split; [exists room; split; [done|by right]|]. split; [done|].
    by intros room0 ?. }
  destruct Hfound as [Hnone Hall].
  assert (∀ room, room ∈ rooms' → ¬ answers_to ref room) as Hno.
  { intros room Hin [Hid|Hal]; [|by apply (Hnone room)].
    apply (list_elem_of_fmap_2 room_id) in Hin. rewrite Hsame in Hin.
    apply list_elem_of_fmap in Hin as (room0 & Heq & Hin0).
    apply (Hids room0 Hin0). congruence. }
  assert (∀ room, room ∈ rooms client →
            room_id room ∈ _aliases_fetched_for s → ¬ answers_to ref room)
    as Hno'.
  { intros room Hin Hf. apply Hno. by apply Hkeep. }
  assert (∀ room, room ∈ rooms' →
            room_id room ∈ _aliases_fetched_for s ∪ list_to_set new)
    as Hall'.
  { intros room Hin.
    apply (list_elem_of_fmap_2 room_id) in Hin. rewrite Hsame in Hin.
    apply list_elem_of_fmap in Hin as (room0 & -> & Hin0). by apply Hall. }
  destruct (hs_join hs _ ref) as [[code content]|joined].
  - eexists (Raise _), _, _, new, [ref]. simpl. rewrite <- app_assoc.
    do 4 (split; [done|]). do 3 (split; [done|]).
    split; [by eexists _, _|]. right. split; [done|]. split; [done|].
    exists rooms'. split; [done|]. split; [done|]. done.
  - eexists (Return _), _, _, new, [ref]. simpl. rewrite <- app_assoc.
    do 4 (split; [done|]). do 3 (split; [done|]).
    split; [apply _mkroom_elem|]. right. split; [done|]. split; [done|].
    exists rooms'. split; [done|]. split; [|done].
    intros joined' Hj. by injection Hj as ->.
Qed.


Lemma resolve_without_client hs ref s :
  _client s = None → _join_or_get_room hs ref s = (Raise AttributeError, s).
Proof.
  intros Hnone. unfold _join_or_get_room, the_client. run. by rewrite Hnone.
Qed.

(** A reachable ref is resolved to a joined room it names, without a join
    request, and stays reachable. *)
Lemma resolve_reachable hs ref s :
  reachable ref s →
  ∃ room s' client',
    _join_or_get_room hs ref s = (Return room, s')
    ∧ _client s' = Some client'
    ∧ room ∈ rooms client'
    ∧ answers_to ref room
    ∧ join_requests (requests s') = join_requests (requests s)
    ∧ reachable ref s'.
Proof.
  intros (client & Hclient & Hreach).
  destruct (resolve_spec hs ref s client Hclient)
    as (res & s' & client' & new & joins & Hrun & Hclient' & Hreqs & Hfetched
        & _ & _ & _ & Hres & [(-> & (room & -> & Hanswers) & Hkeep & Hid)
                             |(_ & Hget & rooms' & _ & _ & _ & _ & Hno)]).
  - exists room, s', client'. do 4 (split; [done|]). split.
    + rewrite Hreqs, !join_requests_app, join_requests_fetches.
      by rewrite !app_nil_r.
    + destruct Hreach as [[room0 Hget]|(room0 & Hin & Hf & Hal)].
      * destruct (Hid _ Hget) as [_ ->]. exists client.
        split; [done|]. left. by exists room0.
      * exists client'. split; [done|]. right. exists room0.
        split; [by apply Hkeep|]. split; [|done].
        rewrite Hfetched. by apply elem_of_union_l.
  - exfalso. destruct Hreach as [[room0 Hget0]|(room0 & Hin & Hf & Hal)].
    + by rewrite Hget in Hget0.
    + apply (Hno room0 Hin Hf). by right.
Qed.

Lemma reachable_stays hs ref n s :
  reachable ref s →
  join_requests (requests (resolve_repeatedly hs n ref s))
    = join_requests (requests s)
  ∧ reachable ref (resolve_repeatedly hs n ref s).
Proof.
  revert s. induction n as [|n IH]; intros s Hreach; [done|].
  destruct (resolve_reachable hs ref s Hreach)
    as (room & s' & client' & Hrun & _ & _ & _ & Hjoins & Hreach').
  simpl. rewrite Hrun. simpl.
  destruct (IH s' Hreach') as [-> ?]. by split.
Qed.

(** Rooms that were fetched before and do not carry the ref are passed
    over by the loop. *)
Lemma search_aliases_skip hs ref (passed rest : list Room) fetched_for reqs :
  (∀ room, room ∈ passed →
           room_id room ∈ fetched_for ∧ ref ∉ aliases room) →
  search_aliases hs ref (passed ++ rest) fetched_for reqs
  = let '(rest', fetched_for', reqs', found) :=
      search_aliases hs ref rest fetched_for reqs in
    (passed ++ rest', fetched_for', reqs', found).
Proof.
  induction passed as [|room passed IH]; intros Hpassed.
  - simpl. by destruct (search_aliases _ _ _ _ _) as [[[? ?] ?] ?].
  - destruct (Hpassed room) as [Hf Hal]; [by left|].
    cbn [app search_aliases].
    rewrite decide_False by (by intros ?).
    rewrite decide_False by done.
    rewrite IH by (intros r Hr; apply Hpassed; by right).
    destruct (search_aliases hs ref rest fetched_for reqs) as [[[? ?] ?] ?].
    reflexivity.
Qed.

(** After a resolve that joined a room not joined before, the next
    resolve of the same ref fetches the aliases of that room; when the
    homeserver lists the ref among them, the ref is reachable from then
    on and no join is requested. *)
Lemma resolve_after_join hs ref s client s1 joined listed :
  _client s = Some client →
  _join_or_get_room hs ref s = (Return (fresh_room joined), s1) →
  join_requests (requests s1) = join_requests (requests s) ++ [ref] →
  joined ∉ _aliases_fetched_for s1 →
  hs_room_aliases hs (requests s1) joined = Some listed →
  ref ∈ listed →
  join_requests (requests (_join_or_get_room hs ref s1).2)
    = join_requests (requests s1)
  ∧ reachable ref (_join_or_get_room hs ref s1).2.
Proof.
  intros Hclient Hrun Hjoined Hnew Hlisted Hin.
  destruct (resolve_spec hs ref s client Hclient)
    as (res & s' & client' & new & joins & Hrun' & Hclient' & Hreqs & _
        & _ & _ & _ & _ & Hcases).
  rewrite Hrun in Hrun'. injection Hrun' as <- <-.
  destruct Hcases as [(-> & _)|(_ & _ & rooms' & _ & Hrooms & Hno & Hall & _)].
  { rewrite Hreqs, !join_requests_app, join_requests_fetches in Hjoined.
    simpl in Hjoined. rewrite app_nil_r in Hjoined.
    apply (f_equal length) in Hjoined. rewrite length_app in Hjoined.
    simpl in Hjoined. lia. }
  specialize (Hrooms joined eq_refl).
  rewrite _mkroom_new in Hrooms.
  2:{ intros r Hr Heq. simpl in Heq. apply Hnew. rewrite <- Heq. by apply Hall. }
  rewrite (resolve_unfold _ _ _ _ Hclient'), Hrooms.
  destruct (rooms_get ref (rooms' ++ [fresh_room joined])) as [room0|] eqn:Hget.
  { simpl. split; [done|]. exists client'. split; [done|]. left.
    rewrite Hrooms. by exists room0. }
  rewrite search_aliases_skip.
  2:{ intros r Hr. split; [by apply Hall|].
      intros Hal. apply (Hno r Hr). by right. }
  cbn [search_aliases]. rewrite decide_True by done.
  unfold update_aliases. cbn [room_id fresh_room]. rewrite Hlisted.
  cbn [aliases]. rewrite decide_True by done. simpl.
  split.
  - by rewrite join_requests_app, app_nil_r.
  - eexists. split; [done|]. right. eexists. simpl.
    split; [apply elem_of_app; right; by left|]. simpl.
    split; [set_solver|done].
Qed.

(** C2 on a homeserver that joins [#alias:hs] into the room [!room:hs]
    and lists no aliases for that room.  The first resolve of the alias
    joins the room.  The second resolve finds the bot in that room,
    fetches its aliases, does not find the alias among them and requests
    the join again: the bot joins a room it is already in, which the
    alias lookup is there to prevent, and two resolves of one alias make
    two joins. *)
Theorem resolver_joins_joined_room_again :
  let hs := homeserver_listing None in
  let first := _join_or_get_room hs "#alias:hs" fresh_bot in
  let second := _join_or_get_room hs "#alias:hs" first.2 in
  first.1 = Return (fresh_room "!room:hs")
  ∧ rooms <$> _client first.2 = Some [fresh_room "!room:hs"]
  ∧ requests first.2 = [CallJoin "#alias:hs"]
  ∧ second.1 = Return (fresh_room "!room:hs")
  ∧ rooms <$> _client second.2 = Some [fresh_room "!room:hs"]
  ∧ requests second.2
    = [CallJoin "#alias:hs"; CallRoomState "!room:hs"; CallJoin "#alias:hs"].
Proof. by vm_compute. Qed.

(** So the rule in the words of the specification does not hold of the
    resolver. *)
Lemma repeated_resolves_join_once_fails : ¬ repeated_resolves_join_once.
Proof.
  intros Hrule.
  specialize (Hrule (homeserver_listing None) fresh_bot "#alias:hs" 2%nat).
  vm_compute in Hrule. specialize (Hrule (ex_intro _ _ eq_refl)). lia.
Qed.

(** The same on a homeserver that lists [#a:hs] for the room.  After two
    resolves of [#a:hs] the alias is in the fetched list of the room.  A
    resolve of [#b:hs], which the homeserver joins into the same room
    without listing it, joins the room again: [join_room] puts a fresh
    room object without aliases in the place of the old one, while the id
    of the room stays in [_aliases_fetched_for].  The aliases are not
    fetched again, and the next resolve of [#a:hs] joins once more. *)
Lemma rejoin_forgets_fetched_aliases :
  let hs := homeserver_listing (Some ["#a:hs"]) in
  let s2 := resolve_repeatedly hs 2 "#a:hs" fresh_bot in
  let s3 := (_join_or_get_room hs "#b:hs" s2).2 in
  let s4 := (_join_or_get_room hs "#a:hs" s3).2 in
  join_requests (requests s2) = ["#a:hs"]
  ∧ rooms <$> _client s2
    = Some [{| room_id := "!room:hs"; aliases := ["#a:hs"];
               listeners := [] |}]
  ∧ rooms <$> _client s3 = Some [fresh_room "!room:hs"]
  ∧ "!room:hs" ∈ _aliases_fetched_for s3
  ∧ join_requests (requests s4) = ["#a:hs"; "#b:hs"; "#a:hs"].
Proof.
  repeat split; by vm_compute.
Qed.

(** The fresh room object has no listeners either: a bot that listens in
    [#alias:hs] and then sends a message to [#alias:hs] joins the room a
    second time and is left without its listener. *)
Lemma rejoin_drops_listener :
  let hs := homeserver_listing None in
  let listening := (_join_rooms hs alias_bot).2 in
  let sent := (handle_send_message hs "hello" ["#alias:hs"] listening).2 in
  rooms <$> _client listening
    = Some [{| room_id := "!room:hs"; aliases := [];
               listeners := ["#alias:hs"] |}]
  ∧ rooms <$> _client sent = Some [fresh_room "!room:hs"]
  ∧ requests sent
    = [CallJoin "#alias:hs"; CallRoomState "!room:hs";
       CallJoin "#alias:hs"; CallSendText "!room:hs" "hello"].
Proof. by vm_compute. Qed.

(** What the resolver does keep.  With a logged-in client:
    - a ref that is the id of a joined room is answered with that room
      and nothing else happens;
    - a reachable ref (the id of a joined room, or an alias in the fetched
      list of one) is answered with a joined room it names and no join is
      requested, also when it is resolved any number of times in a row;
    - when a join is requested, it is for this ref, and the ref names no
      joined room: none by id, none by the aliases fetched before, and
      none by the aliases as they are once the loop has fetched the rest;
    - once a resolve has joined a room that was not joined before and the
      homeserver lists the ref among the aliases of that room, further
      resolves of the ref in a row request no join. *)
Theorem resolver_joins_only_unreachable hs ref s client :
  _client s = Some client →
  (∀ room, rooms_get ref (rooms client) = Some room →
     _join_or_get_room hs ref s = (Return room, s))
  ∧ (reachable ref s →
     (∃ room s' client',
        _join_or_get_room hs ref s = (Return room, s')
        ∧ _client s' = Some client'
        ∧ room ∈ rooms client'
        ∧ answers_to ref room
        ∧ join_requests (requests s') = join_requests (requests s))
     ∧ ∀ n, join_requests (requests (resolve_repeatedly hs n ref s))
            = join_requests (requests s))
  ∧ (join_requests (requests (_join_or_get_room hs ref s).2)
       ≠ join_requests (requests s) →
     join_requests (requests (_join_or_get_room hs ref s).2)
       = join_requests (requests s) ++ [ref]
     ∧ (∀ room, room ∈ rooms client →
          room_id room ≠ ref
          ∧ (room_id room ∈ _aliases_fetched_for s → ref ∉ aliases room))
     ∧ ∃ rooms' fetched_for reqs,
         search_aliases hs ref (rooms client) (_aliases_fetched_for s)
                        (requests s)
         = (rooms', fetched_for, reqs, None)
         ∧ ∀ room, room ∈ rooms' → ¬ answers_to ref room)
  ∧ (∀ joined s1 listed,
       _join_or_get_room hs ref s = (Return (fresh_room joined), s1) →
       join_requests (requests s1) = join_requests (requests s) ++ [ref] →
       joined ∉ _aliases_fetched_for s1 →
       hs_room_aliases hs (requests s1) joined = Some listed →
       ref ∈ listed →
       ∀ n, join_requests (requests (resolve_repeatedly hs n ref s1))
            = join_requests (requests s1)).
Proof.
  intros Hclient. split; [|split; [|split]].
  - intros room Hget. by rewrite (resolve_unfold _ _ _ _ Hclient), Hget.
  - intros Hreach. split.
    + destruct (resolve_reachable hs ref s Hreach)
        as (room & s' & client' & ? & ? & ? & ? & ? & _).
      by exists room, s', client'.
    + intros n. by apply reachable_stays.
  - destruct (resolve_spec hs ref s client Hclient)
      as (res & s' & client' & new & joins & -> & _ & Hreqs & _ & _ & _ & _
          & _ & Hcases).
    simpl. rewrite Hreqs, !join_requests_app, join_requests_fetches.
    simpl. intros Hjoined.
    destruct Hcases as [(-> & _)
                       |(-> & Hget & rooms' & Hsearch & _ & Hno & _ & Hno')].
    { simpl in Hjoined. by rewrite app_nil_r in Hjoined. }
    split; [done|]. split.
    + intros room Hin. split; [by apply (rooms_get_None _ _ Hget)|].
      intros Hf Hal. apply (Hno' room Hin Hf). by right.
    + by eexists rooms', _, _.
  - intros joined s1 listed Hrun Hjoined Hnew Hlisted Hin [|n]; [done|].
    destruct (resolve_after_join hs ref s client s1 joined listed)
      as [Hsame Hreach]; try done.
    simpl. destruct (reachable_stays hs ref n _ Hreach) as [-> _]. done.
Qed.

(** On a homeserver that lists the alias, the first resolve of the alias
    joins and four more request no further join. *)
Lemma resolver_joins_only_unreachable_example :
  join_requests
    (requests
       (resolve_repeatedly (homeserver_listing (Some ["#alias:hs"])) 4
          "#alias:hs"
          (_join_or_get_room (homeserver_listing (Some ["#alias:hs"]))
             "#alias:hs" fresh_bot).2))
  = ["#alias:hs"].
Proof.
  destruct (resolver_joins_only_unreachable
              (homeserver_listing (Some ["#alias:hs"])) "#alias:hs"
              fresh_bot {| token := "token-1"; rooms := [] |} eq_refl)
    as (_ & _ & _ & Hafter).
  rewrite (Hafter "!room:hs" _ ["#alias:hs"] eq_refl);
    [reflexivity | reflexivity | | reflexivity | by left].
  vm_compute. discriminate.
Defined.

(** ** Fetching aliases once *)

Lemma fetches_fresh_refl s : fetches_fresh s s.
Proof.
  exists []. rewrite app_nil_r. simpl. rewrite (right_id_L ∅ (∪)).
  split; [done|]. split; [constructor|]. split; [|done].
  by intros ? ?%elem_of_nil.
Qed.

Lemma fetches_fresh_trans s1 s2 s3 :
  fetches_fresh s1 s2 → fetches_fresh s2 s3 → fetches_fresh s1 s3.
Proof.
  intros (new1 & Hreq1 & Hnd1 & Hfresh1 & Hf1)
         (new2 & Hreq2 & Hnd2 & Hfresh2 & Hf2).
  exists (new1 ++ new2). rewrite Hreq2, Hreq1, Hf2, Hf1, <- app_assoc.
  split; [done|]. split; [|split].
  - apply NoDup_app. split; [done|]. split; [|done].
    intros room Hin1 Hin2. apply (Hfresh2 room Hin2). rewrite Hf1.
    by apply elem_of_union_r, elem_of_list_to_set.
  - intros room [Hin|Hin]%elem_of_app; [by apply Hfresh1|].
    apply Hfresh2 in Hin. rewrite Hf1 in Hin.
    intros Hold. by apply Hin, elem_of_union_l.
  - by rewrite list_to_set_app_L, (assoc_L (∪)).
Qed.

(** A step that requests no room state and leaves the set alone. *)
Lemma fetches_fresh_none s s' :
  room_state_requests (requests s') = room_state_requests (requests s) →
  _aliases_fetched_for s' = _aliases_fetched_for s →
  fetches_fresh s s'.
Proof.
  intros Hreq Hf. exists []. rewrite Hreq, Hf, app_nil_r. simpl.
  rewrite (right_id_L ∅ (∪)).
  split; [done|]. split; [constructor|]. split; [|done].
  by intros ? ?%elem_of_nil.
Qed.

Lemma fetched_once_step s s' :
  fetches_fresh s s' → fetched_once s → fetched_once s'.
Proof.
  intros (new & Hreq & Hnd & Hfresh & Hf) [Hnd0 Hin0].
  unfold fetched_once. rewrite Hreq, Hf. split.
  - apply NoDup_app. split; [done|]. split; [|done].
    intros room Hin Hin'. by apply (Hfresh room Hin'), Hin0.
  - intros room [Hin|Hin]%elem_of_app.
    + by apply elem_of_union_l, Hin0.
    + by apply elem_of_union_r, elem_of_list_to_set.
Qed.

Lemma keeps_ret {A} (a : A) : keeps_fetching_fresh (mret a).
Proof. intros s. apply fetches_fresh_refl. Qed.

Lemma keeps_raise {A} e : keeps_fetching_fresh (@raise A e).
Proof. intros s. apply fetches_fresh_refl. Qed.

Lemma keeps_get : keeps_fetching_fresh get.
Proof. intros s. apply fetches_fresh_refl. Qed.

Lemma keeps_bind {A B} (m : M A) (k : A → M B) :
  keeps_fetching_fresh m → (∀ a, keeps_fetching_fresh (k a)) →
  keeps_fetching_fresh (m ≫= k).
Proof.
  intros Hm Hk s. specialize (Hm s). run.
  destruct (m s) as [[a|e] s']; simpl in *; [|done].
  by eapply fetches_fresh_trans, Hk.
Qed.

Lemma keeps_try {A} (m : M A) (h : Z → string → M A) :
  keeps_fetching_fresh m → (∀ code content, keeps_fetching_fresh (h code content)) →
  keeps_fetching_fresh (try_except_MatrixRequestError m h).
Proof.
  intros Hm Hh s. specialize (Hm s). run.
  destruct (m s) as [[a|[code content| | |]] s']; simpl in *; try done.
  by eapply fetches_fresh_trans, Hh.
Qed.

Lemma keeps_for_each {A} (xs : list A) (f : A → M unit) :
  (∀ x, keeps_fetching_fresh (f x)) → keeps_fetching_fresh (for_each xs f).
Proof.
  intros Hf. induction xs as [|x xs IH]; simpl.
  - apply keeps_ret.
  - apply keeps_bind; [apply Hf|by intros _].
Qed.

Lemma keeps_modify (f : State → State) :
  (∀ s, requests (f s) = requests s
        ∧ _aliases_fetched_for (f s) = _aliases_fetched_for s) →
  keeps_fetching_fresh (modify f).
Proof.
  intros Hf s. destruct (Hf s) as [Hreq Hfetched]. simpl.
  apply fetches_fresh_none; [by rewrite Hreq|done].
Qed.

Lemma keeps_request c :
  (∀ room, c ≠ CallRoomState room) → keeps_fetching_fresh (request c).
Proof.
  intros Hc s. apply fetches_fresh_none; [|done]. simpl.
  rewrite room_state_requests_app.
  destruct c; simpl; try by rewrite app_nil_r. by destruct (Hc room).
Qed.

Lemma room_state_requests_joins (joins : list string) :
  room_state_requests (CallJoin <$> joins) = [].
Proof.
  unfold room_state_requests.
  induction joins as [|j joins IH]; [done|]. simpl. exact IH.
Qed.

Lemma keeps_resolve hs ref : keeps_fetching_fresh (_join_or_get_room hs ref).
Proof.
  intros s. destruct (_client s) as [client|] eqn:Hclient.
  - destruct (resolve_spec hs ref s client Hclient)
      as (res & s' & client' & new & joins & -> & _ & Hreqs & Hf & Hnd
          & Hfresh & _).
    exists new. simpl. rewrite Hreqs, !room_state_requests_app.
    rewrite room_state_requests_fetches.
    by rewrite room_state_requests_joins, app_nil_r.
  - rewrite resolve_without_client by done. apply fetches_fresh_refl.
Qed.

Ltac keeps :=
  repeat first
    [ apply keeps_ret | apply keeps_raise | apply keeps_get
    | apply keeps_resolve
    | apply keeps_bind; [|intros ?]
    | apply keeps_try; [|intros ? ?]
    | apply keeps_for_each; intros ?
    | apply keeps_modify; by intros
    | apply keeps_request; by intros
    | match goal with
      | |- keeps_fetching_fresh (match ?x with _ => _ end) => destruct x
      end ].

Lemma keeps_handler room_id event :
  keeps_fetching_fresh (_handle_room_message room_id event).
Proof.
  intros s. destruct (handler_only_fires room_id event s) as (r & fired & ->).
  by apply fetches_fresh_none.
Qed.

Lemma keeps_send_message hs message target_rooms :
  keeps_fetching_fresh (_send_message hs message target_rooms).
Proof. unfold _send_message, send_text, logger. keeps. Qed.

Lemma keeps_join_rooms hs : keeps_fetching_fresh (_join_rooms hs).
Proof. unfold _join_rooms, add_listener, the_client, logger. keeps. Qed.

Lemma keeps_setup hs : keeps_fetching_fresh (async_setup_entry hs).
Proof.
  unfold async_setup_entry, init_client, _login, _login_by_token,
    _login_by_password, _store_auth_token, save_json, logger.
  keeps.
Qed.

Lemma keeps_lifetime hs activities s :
  fetches_fresh s (lifetime hs activities s).
Proof.
  revert s. induction activities as [|a activities IH]; intros s.
  - apply fetches_fresh_refl.
  - simpl. eapply fetches_fresh_trans; [|apply IH].
    destruct a; simpl.
    + apply keeps_join_rooms.
    + apply keeps_send_message.
    + apply keeps_handler.
Qed.

Lemma fetched_once_built stored username password listening_rooms commands :
  fetched_once (__init__ stored username password listening_rooms commands).
Proof. split; [constructor|]. by intros ? ?%elem_of_nil. Qed.

(** From the constructor on, through the setup and whatever the bot does
    afterwards, no room's aliases are requested twice. *)
Lemma fetched_once_for_life hs stored username password listening_rooms
    commands activities :
  fetched_once
    (lifetime hs activities
       (async_setup_entry hs
          (__init__ stored username password listening_rooms commands)).2).
Proof.
  eapply fetched_once_step; [apply keeps_lifetime|].
  eapply fetched_once_step; [apply keeps_setup|].
  apply fetched_once_built.
Qed.

(** C6: whatever the bot does (joining its rooms at startup, sending to
    any targets, handling messages), the aliases of a room are requested
    at most once; and once a room is in [_aliases_fetched_for] it stays
    there and its aliases are not requested again. *)
Theorem aliases_fetched_once hs activities s :
  fetched_once s →
  fetched_once (lifetime hs activities s)
  ∧ ∀ room, room ∈ _aliases_fetched_for s →
      room ∈ _aliases_fetched_for (lifetime hs activities s)
      ∧ ∃ new,
          room_state_requests (requests (lifetime hs activities s))
            = room_state_requests (requests s) ++ new
          ∧ room ∉ new.
Proof.
  intros Honce. pose proof (keeps_lifetime hs activities s) as Hstep.
  split; [by eapply fetched_once_step|].
  destruct Hstep as (new & Hreq & _ & Hfresh & Hf).
  intros room Hin. split; [rewrite Hf; by apply elem_of_union_l|].
  exists new. split; [done|]. intros Hnew. by apply (Hfresh room).
Qed.

Lemma aliases_fetched_once_example :
  NoDup
    (room_state_requests
       (requests
          (lifetime (homeserver_listing None)
             [Startup; SendMessage "hello" ["#a:hs"; "#b:hs"];
              SendMessage "again" ["#b:hs"; "#a:hs"]]
             fresh_bot))).
Proof.
  apply (aliases_fetched_once (homeserver_listing None)
           [Startup; SendMessage "hello" ["#a:hs"; "#b:hs"];
            SendMessage "again" ["#b:hs"; "#a:hs"]] fresh_bot).
  split; [constructor|]. intros room H. vm_compute in H. inversion H.
Defined.

(** ** Logging in *)

(** C8: with a stored token that the homeserver rejects, [_login] logs
    the rejection and tries the password.  When the password is accepted
    it writes the session file once, with the new token under the bot's
    id, and returns the client; when it is rejected nothing is written,
    the error is raised with its code and content, and the setup returns
    [False] without a client. *)
Theorem login_falls_back_to_password hs s tok code content :
  _auth_tokens s !! _mx_id s = Some tok →
  hs_login_token hs (requests s) (_mx_id s) tok = inl (code, content) →
  match hs_login_password hs
          (requests s ++ [CallLoginToken (_mx_id s) tok])
          (_mx_id s) (_password s) with
  | inr (issued, synced) =>
      ∃ s',
        _login hs s = (Return {| token := issued; rooms := synced |}, s')
        ∧ session_file s'
          = session_file s ++ [<[_mx_id s := issued]> (_auth_tokens s)]
        ∧ _auth_tokens s' = <[_mx_id s := issued]> (_auth_tokens s)
        ∧ requests s'
          = requests s ++ [CallLoginToken (_mx_id s) tok;
                           CallLoginPassword (_mx_id s) (_password s)]
        ∧ log s' = log s ++ [LogTokenLoginFailed code content]
  | inl (code', content') =>
      ∃ s',
        _login hs s = (Raise (MatrixRequestError code' content'), s')
        ∧ session_file s' = session_file s
        ∧ _auth_tokens s' = _auth_tokens s
        ∧ log s' = log s ++ [LogTokenLoginFailed code content;
                             LogLoginFailed code' content']
        ∧ (_client s = None →
           (async_setup_entry hs s).1 = Return false
           ∧ _client (async_setup_entry hs s).2 = None)
  end.
Proof.
  intros Htok Hrejected.
  destruct (hs_login_password hs _ _ _) as [[code' content']|[issued synced]]
    eqn:Hpassword.
  - assert (∃ s',
              _login hs s = (Raise (MatrixRequestError code' content'), s')
              ∧ session_file s' = session_file s
              ∧ _auth_tokens s' = _auth_tokens s
              ∧ log s' = log s ++ [LogTokenLoginFailed code content;
                                   LogLoginFailed code' content']
              ∧ _client s' = _client s)
      as (s' & Hlogin & Hfile & Htokens & Hlog & Hclient).
    { unfold _login, _login_by_token, _login_by_password. run.
      rewrite Htok. rewrite decide_True by by eexists.
      simpl. rewrite Htok, Hrejected. simpl. rewrite Hpassword.
      eexists. split; [done|]. simpl. by rewrite <- app_assoc. }
    exists s'. do 4 (split; [done|]). intros Hnone.
    unfold async_setup_entry, init_client. run.
    rewrite Hnone, Hlogin. simpl. by rewrite Hclient.
  - unfold _login, _login_by_token, _login_by_password, _store_auth_token,
      save_json.
    run. rewrite Htok. rewrite decide_True by by eexists.
    simpl. rewrite Htok, Hrejected. simpl. rewrite Hpassword.
    eexists. split; [done|]. simpl. by rewrite <- app_assoc.
Qed.

Lemma login_falls_back_to_password_example :
  ∃ s',
    _login (homeserver_without_tokens (inr ("token-1", []))) returning_bot
      = (Return {| token := "token-1"; rooms := [] |}, s')
    ∧ session_file s'
      = session_file returning_bot
        ++ [<[_mx_id returning_bot := "token-1"]>
              (_auth_tokens returning_bot)]
    ∧ _auth_tokens s'
      = <[_mx_id returning_bot := "token-1"]> (_auth_tokens returning_bot)
    ∧ requests s'
      = requests returning_bot
        ++ [CallLoginToken (_mx_id returning_bot) "token-0";
            CallLoginPassword (_mx_id returning_bot)
                              (_password returning_bot)]
    ∧ log s' = log returning_bot
               ++ [LogTokenLoginFailed 401 "M_UNKNOWN_TOKEN"].
Proof.
  apply (login_falls_back_to_password
           (homeserver_without_tokens (inr ("token-1", []))) returning_bot
           "token-0" 401%Z "M_UNKNOWN_TOKEN");
    reflexivity.
Defined.

(** ** Sending *)

Lemma for_each_app {A} (xs ys : list A) (f : A → M unit) s :
  for_each (xs ++ ys) f s
  = match for_each xs f s with
    | (Return _, s') => for_each ys f s'
    | (Raise e, s') => (Raise e, s')
    end.
Proof.
  revert s. induction xs as [|x xs IH]; intros s; [done|].
  simpl. run. destruct (f x s) as [[[]|e] s']; [apply IH|done].
Qed.

(** One target: the resolver's outcome decides what is sent and what is
    logged; the turn itself never raises. *)
Lemma send_message_one hs message target s client :
  _client s = Some client →
  ∃ s2 client2,
    _send_message hs message [target] s = (Return tt, s2)
    ∧ _client s2 = Some client2
    ∧ match _join_or_get_room hs target s with
      | (Return room, s1) =>
          requests s2 = requests s1 ++ [CallSendText (room_id room) message]
          ∧ match hs_send_text hs (requests s1) (room_id room) message with
            | None => log s2 = log s
            | Some (code, content) =>
                log s2 = log s ++ [LogUnableToDeliver target code content]
            end
      | (Raise e, s1) =>
          requests s2 = requests s1
          ∧ ∃ code content,
              e = MatrixRequestError code content
              ∧ log s2 = log s ++ [LogUnableToDeliver target code content]
      end.
Proof.
  intros Hclient.
  destruct (resolve_spec hs target s client Hclient)
    as (res & s1 & client1 & new & joins & Hrun & Hclient1 & _ & _ & _ & _
        & (Hlog & _) & Hres & _).
  unfold _send_message. simpl. run. rewrite Hrun.
  destruct res as [room|e].
  - unfold send_text. run. simpl.
    destruct (hs_send_text hs (requests s1) (room_id room) message)
      as [[code content]|]; simpl.
    + eexists _, client1. split; [done|]. split; [done|].
      split; [done|]. simpl. by rewrite Hlog.
    + eexists _, client1. split; [done|]. split; [done|]. by split.
  - destruct Hres as (code & content & ->). simpl.
    eexists _, client1. split; [done|]. split; [done|]. split; [done|].
    exists code, content. split; [done|]. simpl. by rewrite Hlog.
Qed.

Lemma send_message_cons hs message target rest s :
  _send_message hs message (target :: rest) s
  = match _send_message hs message [target] s with
    | (Return _, s') => _send_message hs message rest s'
    | (Raise e, s') => (Raise e, s')
    end.
Proof. apply (for_each_app [target] rest). Qed.

Lemma send_message_returns hs message targets s :
  is_Some (_client s) →
  ∃ s', _send_message hs message targets s = (Return tt, s')
        ∧ is_Some (_client s').
Proof.
  revert s. induction targets as [|target rest IH]; intros s Hclient.
  - by exists s.
  - destruct Hclient as [client Hclient].
    destruct (send_message_one hs message target s client Hclient)
      as (s2 & client2 & Hone & Hclient2 & _).
    rewrite send_message_cons, Hone. apply IH. by exists client2.
Qed.

(** C9: with a logged-in client, [_send_message] never raises.  It takes
    the targets in order: the first target is resolved (or joined) and
    the text sent to the room found; a [MatrixRequestError] from either
    step is logged with the target, the code and the content; then the
    remaining targets are handled from the state the first one left,
    whether it was delivered or not. *)
Theorem send_message_isolates_failures hs message targets s :
  is_Some (_client s) →
  (∃ s', _send_message hs message targets s = (Return tt, s')
         ∧ is_Some (_client s'))
  ∧ (∀ before after, targets = before ++ after →
       _send_message hs message targets s
       = _send_message hs message after
           (_send_message hs message before s).2)
  ∧ (∀ target rest, targets = target :: rest →
       ∃ s2,
         _send_message hs message [target] s = (Return tt, s2)
         ∧ _send_message hs message targets s
           = _send_message hs message rest s2
         ∧ match _join_or_get_room hs target s with
           | (Return room, s1) =>
               requests s2
                 = requests s1 ++ [CallSendText (room_id room) message]
               ∧ match hs_send_text hs (requests s1) (room_id room) message
                 with
                 | None => log s2 = log s
                 | Some (code, content) =>
                     log s2
                     = log s ++ [LogUnableToDeliver target code content]
                 end
           | (Raise e, s1) =>
               requests s2 = requests s1
               ∧ ∃ code content,
                   e = MatrixRequestError code content
                   ∧ log s2
                     = log s ++ [LogUnableToDeliver target code content]
           end).
Proof.
  intros Hclient. split; [by apply send_message_returns|]. split.
  - intros before after ->.
    destruct (send_message_returns hs message before s Hclient)
      as (s' & Hbefore & _).
    unfold _send_message in *. by rewrite for_each_app, Hbefore.
  - intros target rest ->. destruct Hclient as [client Hclient].
    destruct (send_message_one hs message target s client Hclient)
      as (s2 & client2 & Hone & _ & Hwhat).
    exists s2. split; [done|]. split; [|done].
    by rewrite send_message_cons, Hone.
Qed.

(** Sending to a room that can be joined and to one that cannot: the
    call returns normally. *)
Lemma send_message_isolates_failures_example :
  ∃ s',
    _send_message (homeserver_refusing "#closed:hs") "hello"
        ["#open:hs"; "#closed:hs"] fresh_bot
      = (Return tt, s')
    ∧ is_Some (_client s').
Proof.
  refine (proj1 (send_message_isolates_failures
                   (homeserver_refusing "#closed:hs") "hello"
                   ["#open:hs"; "#closed:hs"] fresh_bot _)).
  exists {| token := "token-1"; rooms := [] |}. reflexivity.
Defined.

(** What the homeserver and the log have seen of it: the room that can
    be joined gets the text and the refusal of the other is logged, in
    either order of the targets. *)
Lemma send_message_example_trace :
  let open_then_closed :=
    (_send_message (homeserver_refusing "#closed:hs") "hello"
       ["#open:hs"; "#closed:hs"] fresh_bot).2 in
  let closed_then_open :=
    (_send_message (homeserver_refusing "#closed:hs") "hello"
       ["#closed:hs"; "#open:hs"] fresh_bot).2 in
  requests open_then_closed
    = [CallJoin "#open:hs"; CallSendText "!room:hs" "hello";
       CallRoomState "!room:hs"; CallJoin "#closed:hs"]
  ∧ log open_then_closed
    = [LogUnableToDeliver "#closed:hs" 403 "M_FORBIDDEN"]
  ∧ requests closed_then_open
    = [CallJoin "#closed:hs"; CallJoin "#open:hs";
       CallSendText "!room:hs" "hello"]
  ∧ log closed_then_open
    = [LogUnableToDeliver "#closed:hs" 403 "M_FORBIDDEN"].
Proof. by vm_compute. Qed.

(** * More properties *)

(** ** The tables and the configuration *)

(** The expression list of a room holds, in the order of the
    configuration, the commands without a usable word whose scope has the
    room, once for each time the room occurs in the scope. *)
Theorem expression_table_in_configuration_order stored username password
    listening_rooms commands r :
  expression_lookup
    (_expression_commands
       (__init__ stored username password listening_rooms commands)) r
  = commands ≫= expression_entries listening_rooms r.
Proof. simpl. unfold build_tables. by rewrite expression_lookup_build. Qed.

(** The word table of a room holds, under a word, the last command of the
    configuration that has this word (not empty) and the room in its
    scope, with its scope filled in; it holds nothing under a word that no
    such command has. *)
Theorem word_table_holds_last_writer stored username password
    listening_rooms commands r w :
  word_lookup
    (_word_commands
       (__init__ stored username password listening_rooms commands)) r w
  = default_rooms listening_rooms
      <$> last (filter (registers_word listening_rooms r w) commands).
Proof.
  simpl. unfold build_tables. rewrite word_lookup_build.
  destruct (last _); [done|]. apply word_lookup_empty.
Qed.

(** A command with rooms of its own is found in the tables of these rooms
    only, whatever the listening rooms are: as an expression command in
    the list of each of them, as a word command under its word in each of
    them for which no later command writes that word. *)
Theorem scoped_command_scope stored username password listening_rooms
    before command after r :
  conf_rooms command ≠ [] →
  let s := __init__ stored username password listening_rooms
             (before ++ command :: after) in
  default_rooms listening_rooms command = command
  ∧ (registered s r command → r ∈ conf_rooms command)
  ∧ (r ∈ conf_rooms command → has_word command = false →
     command ∈ expression_lookup (_expression_commands s) r)
  ∧ (r ∈ conf_rooms command →
     ∀ w, conf_word command = Some w → w ≠ "" →
          Forall (λ c, ¬ registers_word listening_rooms r w c) after →
          word_lookup (_word_commands s) r w = Some command).
Proof.
  intros Hrooms s.
  assert (default_rooms listening_rooms command = command) as Hsame.
  { unfold default_rooms. by destruct (conf_rooms command). }
  split; [done|]. split; [|split].
  - apply registered_in_scope.
  - intros Hin Hword. subst s. simpl. unfold build_tables.
    rewrite expression_lookup_build. simpl.
    apply list_elem_of_bind. exists command. split; [|set_solver].
    unfold expression_entries. rewrite Hword, Hsame.
    apply list_elem_of_fmap. exists r. split; [done|].
    by apply list_elem_of_filter.
  - intros Hin w Hword Hne Hafter. subst s. simpl. unfold build_tables.
    rewrite <- Hsame at 2. apply word_lookup_last_writer; [|done].
    split; [done|]. split; [done|]. by rewrite Hsame.
Qed.

Lemma scoped_command_scope_example :
  let s := __init__ None "@bot:hs" "secret" ["!elsewhere:hs"]
             ([] ++ status_command :: []) in
  default_rooms ["!elsewhere:hs"] status_command = status_command
  ∧ (registered s "!room:hs" status_command →
     "!room:hs" ∈ conf_rooms status_command)
  ∧ ("!room:hs" ∈ conf_rooms status_command →
     has_word status_command = false →
     status_command ∈ expression_lookup (_expression_commands s) "!room:hs")
  ∧ ("!room:hs" ∈ conf_rooms status_command →
     ∀ w, conf_word status_command = Some w → w ≠ "" →
          Forall (λ c, ¬ registers_word ["!elsewhere:hs"] "!room:hs" w c)
                 [] →
          word_lookup (_word_commands s) "!room:hs" w
          = Some status_command).
Proof.
  apply (scoped_command_scope None "@bot:hs" "secret" ["!elsewhere:hs"]
           [] status_command [] "!room:hs").
  discriminate.
Defined.

(** When every configured command is usable, every entry of every
    expression list carries an expression. *)
Lemma usable_commands_have_expressions listening_rooms commands r :
  Forall usable commands →
  Forall (λ c, is_Some (conf_expression c))
         (commands ≫= expression_entries listening_rooms r).
Proof.
  intros Hall. apply Forall_forall. intros entry Hentry.
  apply list_elem_of_bind in Hentry as (command & Hentry & Hin).
  rewrite Forall_forall in Hall. specialize (Hall command Hin).
  unfold expression_entries in Hentry.
  destruct (has_word command) eqn:Hword; [by apply elem_of_nil in Hentry|].
  apply list_elem_of_fmap in Hentry as (r' & -> & _).
  destruct Hall as [Htrue|Hexpr]; [congruence|].
  unfold default_rooms. by destruct (conf_rooms command).
Qed.

(** From the configuration to the events: when every configured command
    is usable, a text message of somebody else with a non-empty body
    makes the handler return normally, having fired at most one word event
    and then, in the order of the configuration, one event for each
    expression command of the room whose expression matches the body. *)
Theorem handler_returns_for_usable_commands stored username password
    listening_rooms commands room_id event c rest :
  Forall usable commands →
  msgtype event = "m.text" →
  sender event ≠ username →
  body event = String c rest →
  ∃ word_fired,
    _handle_room_message room_id event
        (__init__ stored username password listening_rooms commands)
    = (Return tt,
       set_bus (word_fired ++
                omap (expression_event room_id event)
                     (commands ≫= expression_entries listening_rooms room_id))
               (__init__ stored username password listening_rooms commands))
    ∧ (length word_fired ≤ 1)%nat
    ∧ Forall (λ e, ¬ is_expression_event e) word_fired.
Proof.
  intros Husable Htext Hsender Hbody.
  assert (expression_lookup
            (_expression_commands
               (__init__ stored username password listening_rooms commands))
            room_id
          = commands ≫= expression_entries listening_rooms room_id) as Hlist.
  { simpl. unfold build_tables. by rewrite expression_lookup_build. }
  destruct (expression_commands_fire room_id event
              (__init__ stored username password listening_rooms commands)
              c rest Htext Hsender Hbody)
    as (word_fired & Hrun & Hlen & Hword).
  { rewrite Hlist. by apply usable_commands_have_expressions. }
  exists word_fired. split; [|done].
  rewrite Hrun. by rewrite Hlist.
Qed.

Lemma handler_returns_for_usable_commands_example :
  ∃ word_fired,
    _handle_room_message "!room:hs"
        (text_from "@alice:hs" "status: ok, all fine")
        (__init__ None "@bot:hs" "secret" ["!room:hs"]
           [status_command; ping_command; echo_command])
    = (Return tt,
       set_bus (word_fired ++
                omap (expression_event "!room:hs"
                        (text_from "@alice:hs" "status: ok, all fine"))
                     ([status_command; ping_command; echo_command]
                        ≫= expression_entries ["!room:hs"] "!room:hs"))
               (__init__ None "@bot:hs" "secret" ["!room:hs"]
                  [status_command; ping_command; echo_command]))
    ∧ (length word_fired ≤ 1)%nat
    ∧ Forall (λ e, ¬ is_expression_event e) word_fired.
Proof.
  apply (handler_returns_for_usable_commands None "@bot:hs" "secret"
           ["!room:hs"] [status_command; ping_command; echo_command]
           "!room:hs" (text_from "@alice:hs" "status: ok, all fine")
           "s"%char "tatus: ok, all fine").
  - apply Forall_cons. split; [right; by eexists|].
    apply Forall_cons. split; [by left|].
    apply Forall_cons. split; [right; by eexists|]. constructor.
  - reflexivity.
  - discriminate.
  - reflexivity.
Defined.

(** ** More about the handler *)

(** What the loop over the expression commands returns and fires does not
    depend on the state it runs in. *)
Lemma expression_loop_uniform room_id event (commands : list Command) :
  ∃ r fired,
    Forall is_expression_event fired
    ∧ ∀ s, for_each commands (handle_expression_command room_id event) s
           = (r, set_bus (bus s ++ fired) s).
Proof.
  induction commands as [|command commands (r & fired & Hall & IH)].
  - exists (Return tt), []. split; [done|]. intros s. simpl. run.
    by rewrite app_nil_r, set_bus_same.
  - destruct (conf_expression command) as [expression|] eqn:Hx.
    + destruct (re_match expression (body event)) as [groups|] eqn:Hm.
      * exists r, ({| ev_command := conf_name command;
                      ev_sender := sender event; ev_room := room_id;
                      ev_args := ArgsDict groups |} :: fired).
        split.
        { constructor; [by exists groups|done]. }
        intros s. simpl. run. unfold handle_expression_command at 1.
        rewrite Hx, Hm. run. rewrite IH. simpl.
        by rewrite <- app_assoc.
      * exists r, fired. split; [done|]. intros s. simpl. run.
        unfold handle_expression_command at 1. rewrite Hx, Hm. run.
        by rewrite IH.
    + exists (Raise KeyError), []. split; [done|]. intros s. simpl. run.
      unfold handle_expression_command at 1. rewrite Hx. run.
      by rewrite app_nil_r, set_bus_same.
Qed.

(** The shape of what the handler fires: at most one word event, which
    comes from a body that starts with an exclamation mark and whose first
    piece is in the word table of the room, and after it events of
    expression commands only. *)
Lemma handler_fired_shape room_id event s :
  ∃ r word_fired expression_fired,
    _handle_room_message room_id event s
      = (r, set_bus (bus s ++ word_fired ++ expression_fired) s)
    ∧ Forall is_expression_event expression_fired
    ∧ (word_fired = []
       ∨ ∃ rest piece0 pieces1 command,
           body event = String "!" rest
           ∧ split " " (body event) = piece0 :: pieces1
           ∧ word_lookup (_word_commands s) room_id (slice_from_1 piece0)
             = Some command
           ∧ word_fired = [word_event room_id event command pieces1]).
Proof.
  destruct (decide (msgtype event ≠ "m.text")) as [Hty|Hty].
  { exists (Return tt), [], [].
    rewrite handler_skips_other_types by done. simpl.
    rewrite app_nil_r, set_bus_same. split; [done|]. split; [done|by left]. }
  destruct (decide (sender event = _mx_id s)) as [Hown|Hown].
  { exists (Return tt), [], [].
    rewrite handler_skips_own_messages by done. simpl.
    rewrite app_nil_r, set_bus_same. split; [done|]. split; [done|by left]. }
  apply dec_stable in Hty. rewrite handler_unfold by done.
  destruct (body event) as [|c rest] eqn:Hbody.
  { exists (Raise IndexError), [], []. unfold handle_word_command. run.
    rewrite Hbody. simpl. rewrite app_nil_r, set_bus_same.
    split; [done|]. split; [done|by left]. }
  destruct (expression_loop_uniform room_id event
              (expression_lookup (_expression_commands s) room_id))
    as (r & fired & Hall & Hloop).
  destruct (decide (c = "!"%char)) as [->|Hc].
  - destruct (split " " (String "!" rest)) as [|piece0 pieces1] eqn:Hsplit;
      [by apply split_nonempty in Hsplit|].
    rewrite <- Hbody in Hsplit.
    rewrite (handle_word_command_bang _ _ _ _ _ _ Hbody Hsplit).
    destruct (word_lookup _ _ _) as [command|] eqn:Hlookup.
    + exists r, [word_event room_id event command pieces1], fired.
      simpl. rewrite Hloop. simpl. rewrite <- app_assoc.
      split; [done|]. split; [done|]. right.
      exists rest, piece0, pieces1, command. by rewrite <- Hbody.
    + exists r, [], fired. rewrite Hloop. split; [done|].
      split; [done|by left].
  - rewrite (handle_word_command_other _ _ _ _ _ Hbody Hc).
    exists r, [], fired. rewrite Hloop. split; [done|].
    split; [done|by left].
Qed.

(** Handling a message does nothing but fire events: it sends nothing to
    the homeserver, logs nothing, writes no token, and leaves the client,
    the fetched set and the configuration as they are, whatever the
    message and whether or not it raises. *)
Theorem handler_only_fires_events room_id event s :
  let s' := (_handle_room_message room_id event s).2 in
  (∃ fired, bus s' = bus s ++ fired)
  ∧ requests s' = requests s
  ∧ log s' = log s
  ∧ session_file s' = session_file s
  ∧ _auth_tokens s' = _auth_tokens s
  ∧ _client s' = _client s
  ∧ _aliases_fetched_for s' = _aliases_fetched_for s
  ∧ same_configuration s s'.
Proof.
  destruct (handler_fired_shape room_id event s)
    as (r & word_fired & expression_fired & -> & _).
  simpl. split; [by eexists|]. by repeat split.
Qed.

(** Messages in one room are handled by the tables of that room alone:
    two bots with the same identity whose tables agree on a room return
    the same and fire the same events for a message in it, whatever they
    hold for other rooms. *)
Theorem handler_reads_only_its_room room_id event s1 s2 :
  _mx_id s1 = _mx_id s2 →
  (∀ w, word_lookup (_word_commands s1) room_id w
        = word_lookup (_word_commands s2) room_id w) →
  expression_lookup (_expression_commands s1) room_id
    = expression_lookup (_expression_commands s2) room_id →
  ∃ r fired,
    _handle_room_message room_id event s1 = (r, set_bus (bus s1 ++ fired) s1)
    ∧ _handle_room_message room_id event s2
      = (r, set_bus (bus s2 ++ fired) s2).
Proof.
  intros Hid Hwords Hexprs.
  destruct (decide (msgtype event ≠ "m.text")) as [Hty|Hty].
  { exists (Return tt), [].
    rewrite !handler_skips_other_types by done.
    by rewrite !app_nil_r, !set_bus_same. }
  destruct (decide (sender event = _mx_id s1)) as [Hown|Hown].
  { exists (Return tt), [].
    rewrite !handler_skips_own_messages by congruence.
    by rewrite !app_nil_r, !set_bus_same. }
  apply dec_stable in Hty.
  rewrite !handler_unfold by congruence.
  destruct (body event) as [|c rest] eqn:Hbody.
  { exists (Raise IndexError), []. unfold handle_word_command. run.
    rewrite Hbody. simpl. by rewrite !app_nil_r, !set_bus_same. }
  destruct (expression_loop_uniform room_id event
              (expression_lookup (_expression_commands s1) room_id))
    as (r & fired & _ & Hloop).
  destruct (decide (c = "!"%char)) as [->|Hc].
  - destruct (split " " (String "!" rest)) as [|piece0 pieces1] eqn:Hsplit;
      [by apply split_nonempty in Hsplit|].
    rewrite <- Hbody in Hsplit.
    rewrite !(handle_word_command_bang _ _ _ _ _ _ Hbody Hsplit).
    rewrite <- Hwords.
    destruct (word_lookup _ _ _) as [command|].
    + exists r, (word_event room_id event command pieces1 :: fired).
      simpl. rewrite <- Hexprs, !Hloop. simpl.
      by rewrite <- !app_assoc.
    + exists r, fired. by rewrite <- Hexprs, !Hloop.
  - rewrite !(handle_word_command_other _ _ _ _ _ Hbody Hc).
    exists r, fired. by rewrite <- Hexprs, !Hloop.
Qed.

Lemma handler_reads_only_its_room_example :
  ∃ r fired,
    _handle_room_message "!room:hs" (text_from "@alice:hs" "!ping now")
        ping_bot
      = (r, set_bus (bus ping_bot ++ fired) ping_bot)
    ∧ _handle_room_message "!room:hs" (text_from "@alice:hs" "!ping now")
        two_room_bot
      = (r, set_bus (bus two_room_bot ++ fired) two_room_bot).
Proof.
  apply (handler_reads_only_its_room "!room:hs"
           (text_from "@alice:hs" "!ping now") ping_bot two_room_bot);
    [reflexivity | | reflexivity].
  intros w. unfold ping_bot, two_room_bot, __init__.
  cbn [_word_commands]. unfold build_tables. cbn [foldl].
  rewrite !word_lookup_add_command.
  rewrite (decide_False (P := registers_word _ _ w ping_elsewhere)).
  2:{ intros (_ & _ & Hin). simpl in Hin.
      by apply list_elem_of_singleton in Hin. }
  destruct (decide (registers_word ["!room:hs"] "!room:hs" w ping_command))
    as [(Hw & Hne & Hin)|Hno].
  - by rewrite decide_True.
  - rewrite decide_False; [done|]. intros (Hw & Hne & Hin). by apply Hno.
Defined.

(** A message whose body does not start with an exclamation mark fires no
    word command, even when the body is the word of one: everything it
    fires comes from expression commands. *)
Theorem no_word_command_without_exclamation_mark room_id event s :
  (∀ rest, body event ≠ String "!" rest) →
  ∃ r fired,
    _handle_room_message room_id event s = (r, set_bus (bus s ++ fired) s)
    ∧ Forall is_expression_event fired.
Proof.
  intros Hbody.
  destruct (handler_fired_shape room_id event s)
    as (r & word_fired & fired & Hrun & Hall
        & [->|(rest & _ & _ & _ & Hbang & _)]).
  - by exists r, fired.
  - by destruct (Hbody rest).
Qed.

Lemma no_word_command_without_exclamation_mark_example :
  ∃ r fired,
    _handle_room_message "!room:hs" (text_from "@alice:hs" "ping")
        ping_bot
      = (r, set_bus (bus ping_bot ++ fired) ping_bot)
    ∧ Forall is_expression_event fired.
Proof.
  apply (no_word_command_without_exclamation_mark "!room:hs"
           (text_from "@alice:hs" "ping") ping_bot).
  intros rest. discriminate.
Defined.

(** A command without a usable word and without an expression stops the
    handler: a text message of somebody else with a non-empty body in a
    room whose expression list has such an entry raises [KeyError] there.
    The entries before it have fired, the entries after it are not looked
    at. *)
Theorem handler_raises_at_command_without_expression room_id event s c rest
    before broken after :
  msgtype event = "m.text" →
  sender event ≠ _mx_id s →
  body event = String c rest →
  expression_lookup (_expression_commands s) room_id
    = before ++ broken :: after →
  Forall (λ c, is_Some (conf_expression c)) before →
  conf_expression broken = None →
  ∃ word_fired,
    _handle_room_message room_id event s
      = (Raise KeyError,
         set_bus (bus s ++ word_fired ++
                  omap (expression_event room_id event) before) s)
    ∧ (length word_fired ≤ 1)%nat.
Proof.
  intros Htext Hsender Hbody Hlist Hbefore Hbroken.
  assert (∀ s0, for_each (before ++ broken :: after)
                  (handle_expression_command room_id event) s0
                = (Raise KeyError,
                   set_bus (bus s0 ++
                            omap (expression_event room_id event) before) s0))
    as Hloop.
  { intros s0. rewrite for_each_app, expression_loop_complete by done.
    simpl. run. unfold handle_expression_command at 1.
    by rewrite Hbroken. }
  rewrite handler_unfold by done.
  destruct (decide (c = "!"%char)) as [->|Hc].
  - destruct (split " " (body event)) as [|piece0 pieces1] eqn:Hsplit;
      [by apply split_nonempty in Hsplit|].
    rewrite (handle_word_command_bang _ _ _ _ _ _ Hbody Hsplit).
    destruct (word_lookup _ _ _) as [command|].
    + exists [word_event room_id event command pieces1].
      simpl. rewrite Hlist, Hloop. simpl. rewrite <- app_assoc.
      split; [done|lia].
    + exists []. rewrite Hlist, Hloop. split; [done|simpl; lia].
  - rewrite (handle_word_command_other _ _ _ _ _ Hbody Hc).
    exists []. rewrite Hlist, Hloop. split; [done|simpl; lia].
Qed.

Lemma handler_raises_at_command_without_expression_example :
  ∃ word_fired,
    _handle_room_message "!room:hs" (text_from "@alice:hs" "status: ok")
        wordless_bot
      = (Raise KeyError,
         set_bus (bus wordless_bot ++ word_fired ++
                  omap (expression_event "!room:hs"
                          (text_from "@alice:hs" "status: ok"))
                       [default_rooms ["!room:hs"] echo_command])
                 wordless_bot)
    ∧ (length word_fired ≤ 1)%nat.
Proof.
  apply (handler_raises_at_command_without_expression "!room:hs"
           (text_from "@alice:hs" "status: ok") wordless_bot
           "s"%char "tatus: ok"
           [default_rooms ["!room:hs"] echo_command]
           wordless_command [status_command]);
    [reflexivity | discriminate | reflexivity | reflexivity | | reflexivity].
  apply Forall_cons. split; [by eexists|constructor].
Defined.

(** ** The pieces of a body *)






(** ** More about logging in *)

(** Everything a login can do. *)
Lemma login_spec hs s :
  ∃ r s',
    _login hs s = (r, s')
    ∧ _client s' = _client s
    ∧ bus s' = bus s
    ∧ _aliases_fetched_for s' = _aliases_fetched_for s
    ∧ same_configuration s s'
    ∧ (∃ calls, requests s' = requests s ++ calls ∧ (length calls ≤ 2)%nat)
    ∧ match r with
      | Return client =>
          _auth_tokens s' !! _mx_id s = Some (token client)
          ∧ ((session_file s' = session_file s
              ∧ _auth_tokens s' = _auth_tokens s)
             ∨ session_file s' = session_file s ++ [_auth_tokens s'])
      | Raise e =>
          ∃ code content,
            e = MatrixRequestError code content
            ∧ session_file s' = session_file s
            ∧ _auth_tokens s' = _auth_tokens s
            ∧ last (log s') = Some (LogLoginFailed code content)
      end.
Proof.
  unfold _login, _login_by_token, _login_by_password, _store_auth_token,
    save_json.
  run.
  destruct (_auth_tokens s !! _mx_id s) as [tok|] eqn:Htok.
  - rewrite decide_True by by eexists. simpl. rewrite Htok.
    destruct (hs_login_token hs (requests s) (_mx_id s) tok)
      as [[code content]|synced]; simpl.
    + destruct (hs_login_password hs _ _ _)
        as [[code' content']|[issued synced]]; simpl.
      * eexists _, _. split; [done|]. simpl. do 4 (split; [done|]).
        split; [eexists; rewrite <- app_assoc; by split|].
        exists code', content'. do 3 (split; [done|]). apply last_snoc.
      * eexists _, _. split; [done|]. simpl. do 4 (split; [done|]).
        split; [eexists; rewrite <- app_assoc; by split|].
        split; [apply lookup_insert_eq|by right].
    + eexists _, _. split; [done|]. simpl. do 4 (split; [done|]).
      split; [eexists; split; [done|simpl; lia]|].
      split; [done|by left].
  - rewrite decide_False by (by intros [? ?]). simpl.
    destruct (hs_login_password hs _ _ _)
      as [[code' content']|[issued synced]]; simpl.
    + eexists _, _. split; [done|]. simpl. do 4 (split; [done|]).
      split; [eexists; split; [done|simpl; lia]|].
      exists code', content'. do 3 (split; [done|]). apply last_snoc.
    + eexists _, _. split; [done|]. simpl. do 4 (split; [done|]).
      split; [eexists; split; [done|simpl; lia]|].
      split; [apply lookup_insert_eq|by right].
Qed.



(** Without a stored token for the bot's identity the password is tried
    at once and no token request is made.  An accepted password gives the
    client and one write of the session file with the issued token; a
    rejected one raises the error, is logged, and writes nothing. *)
Theorem login_without_stored_token hs s :
  _auth_tokens s !! _mx_id s = None →
  match hs_login_password hs (requests s) (_mx_id s) (_password s) with
  | inr (issued, synced) =>
      ∃ s',
        _login hs s = (Return {| token := issued; rooms := synced |}, s')
        ∧ requests s'
          = requests s ++ [CallLoginPassword (_mx_id s) (_password s)]
        ∧ session_file s'
          = session_file s ++ [<[_mx_id s := issued]> (_auth_tokens s)]
        ∧ _auth_tokens s' = <[_mx_id s := issued]> (_auth_tokens s)
        ∧ log s' = log s
  | inl (code, content) =>
      ∃ s',
        _login hs s = (Raise (MatrixRequestError code content), s')
        ∧ requests s'
          = requests s ++ [CallLoginPassword (_mx_id s) (_password s)]
        ∧ session_file s' = session_file s
        ∧ _auth_tokens s' = _auth_tokens s
        ∧ log s' = log s ++ [LogLoginFailed code content]
  end.
Proof.
  intros Htok.
  destruct (hs_login_password hs _ _ _) as [[code content]|[issued synced]]
    eqn:Hpassword;
    unfold _login, _login_by_password, _store_auth_token, save_json; run;
    rewrite Htok; rewrite decide_False by (by intros [? ?]);
    simpl; rewrite Hpassword; by eexists.
Qed.

Lemma login_without_stored_token_example :
  ∃ s',
    _login (homeserver_without_tokens (inl (403%Z, "M_FORBIDDEN"))) ping_bot
      = (Raise (MatrixRequestError 403 "M_FORBIDDEN"), s')
    ∧ requests s'
      = requests ping_bot
        ++ [CallLoginPassword (_mx_id ping_bot) (_password ping_bot)]
    ∧ session_file s' = session_file ping_bot
    ∧ _auth_tokens s' = _auth_tokens ping_bot
    ∧ log s' = log ping_bot ++ [LogLoginFailed 403 "M_FORBIDDEN"].
Proof.
  apply (login_without_stored_token
           (homeserver_without_tokens (inl (403%Z, "M_FORBIDDEN")))
           ping_bot).
  reflexivity.
Defined.

(** Whatever the homeserver answers, a login makes at most two requests
    and writes the session file at most once.  When it returns a client,
    the token of that client is the one held for the bot's identity
    afterwards, and what was written, if anything, is the mapping held in
    memory; when it raises, it raises the rejection of the password, and
    neither the mapping nor the file has changed. *)
Theorem login_keeps_tokens_in_step hs s :
  ∃ r s' calls,
    _login hs s = (r, s')
    ∧ requests s' = requests s ++ calls ∧ (length calls ≤ 2)%nat
    ∧ match r with
      | Return client =>
          _auth_tokens s' !! _mx_id s = Some (token client)
          ∧ ((session_file s' = session_file s
              ∧ _auth_tokens s' = _auth_tokens s)
             ∨ session_file s' = session_file s ++ [_auth_tokens s'])
      | Raise e =>
          ∃ code content,
            e = MatrixRequestError code content
            ∧ session_file s' = session_file s
            ∧ _auth_tokens s' = _auth_tokens s
            ∧ last (log s') = Some (LogLoginFailed code content)
      end.
Proof.
  destruct (login_spec hs s)
    as (r & s' & Hrun & _ & _ & _ & _ & (calls & Hcalls & Hlen) & Hres).
  by exists r, s', calls.
Qed.

(** A token written by one process is the token the next one logs in
    with: the mapping that [_store_auth_token] writes holds the token
    under the bot's identity and the tokens of all other identities as
    they were, and a bot built from that mapping logs in with this token
    in a single request when the homeserver accepts it. *)
Theorem stored_token_is_used_next_time hs s tok password listening_rooms
    commands synced :
  hs_login_token hs [] (_mx_id s) tok = inr synced →
  ∃ written,
    last (session_file (_store_auth_token tok s).2) = Some written
    ∧ written !! _mx_id s = Some tok
    ∧ (∀ other, other ≠ _mx_id s →
                written !! other = _auth_tokens s !! other)
    ∧ _login hs
        (__init__ (Some written) (_mx_id s) password listening_rooms
                  commands)
      = (Return {| token := tok; rooms := synced |},
         set_requests [CallLoginToken (_mx_id s) tok]
           (__init__ (Some written) (_mx_id s) password listening_rooms
                     commands)).
Proof.
  intros Haccepted. exists (<[_mx_id s := tok]> (_auth_tokens s)).
  split; [unfold _store_auth_token, save_json; run; simpl; apply last_snoc|].
  split; [apply lookup_insert_eq|].
  split; [intros other Hother; by apply lookup_insert_ne|].
  unfold _login, _login_by_token. run. simpl.
  rewrite lookup_insert_eq. rewrite decide_True by by eexists.
  simpl. by rewrite lookup_insert_eq, Haccepted.
Qed.

Lemma stored_token_is_used_next_time_example :
  ∃ written,
    last (session_file (_store_auth_token "token-9" ping_bot).2)
      = Some written
    ∧ written !! _mx_id ping_bot = Some "token-9"
    ∧ (∀ other, other ≠ _mx_id ping_bot →
                written !! other = _auth_tokens ping_bot !! other)
    ∧ _login homeserver_accepting
        (__init__ (Some written) (_mx_id ping_bot) "secret" ["!room:hs"]
                  [ping_command])
      = (Return {| token := "token-9"; rooms := [] |},
         set_requests [CallLoginToken (_mx_id ping_bot) "token-9"]
           (__init__ (Some written) (_mx_id ping_bot) "secret"
                     ["!room:hs"] [ping_command])).
Proof.
  apply (stored_token_is_used_next_time homeserver_accepting ping_bot
           "token-9" "secret" ["!room:hs"] [ping_command] []).
  reflexivity.
Defined.

(** [init_client] logs in once: when it returns, the bot has a client and
    a further call returns at once, sending nothing and changing nothing;
    when it raises, it raises the rejection of the login and the bot has
    no client. *)
Theorem init_client_logs_in_once hs s :
  ∃ r s',
    init_client hs s = (r, s')
    ∧ match r with
      | Return _ =>
          is_Some (_client s') ∧ init_client hs s' = (Return tt, s')
      | Raise e =>
          (∃ code content, e = MatrixRequestError code content)
          ∧ _client s' = None
      end.
Proof.
  unfold init_client at 1. run.
  destruct (_client s) as [client|] eqn:Hclient.
  - exists (Return tt), s. split; [done|]. split; [by eexists|].
    unfold init_client. run. by rewrite Hclient.
  - destruct (login_spec hs s)
      as (r & s' & -> & Hsame & _ & _ & _ & _ & Hres).
    destruct r as [client|e].
    + eexists _, _. split; [done|]. simpl. split; [by eexists|].
      unfold init_client. by run.
    + destruct Hres as (code & content & -> & _).
      eexists _, _. split; [done|]. simpl.
      split; [by eexists _, _|congruence].
Qed.

(** Setting up an entry never raises: it returns [True] with a client in
    place, or [False] with the rejection logged and no client. *)
Theorem setup_entry_never_raises hs s :
  _client s = None →
  ∃ ok s',
    async_setup_entry hs s = (Return ok, s')
    ∧ (if ok then is_Some (_client s')
       else _client s' = None
            ∧ ∃ code content,
                last (log s') = Some (LogSetupFailed code content)).
Proof.
  intros Hnone. unfold async_setup_entry, init_client. run. rewrite Hnone.
  destruct (login_spec hs s) as (r & s' & -> & Hsame & _ & _ & _ & _ & Hres).
  destruct r as [client|e]; simpl.
  - exists true. eexists. split; [done|]. by eexists.
  - destruct Hres as (code & content & -> & _).
    exists false. eexists. split; [done|]. simpl.
    split; [congruence|]. exists code, content. apply last_snoc.
Qed.

Lemma setup_entry_never_raises_example :
  ∃ ok s',
    async_setup_entry
        (homeserver_without_tokens (inl (403%Z, "M_FORBIDDEN")))
        returning_bot
      = (Return ok, s')
    ∧ (if ok then is_Some (_client s')
       else _client s' = None
            ∧ ∃ code content,
                last (log s') = Some (LogSetupFailed code content)).
Proof.
  apply (setup_entry_never_raises
           (homeserver_without_tokens (inl (403%Z, "M_FORBIDDEN")))
           returning_bot).
  reflexivity.
Defined.

(** ** What stays as it is *)

#[global] Instance same_configuration_preorder : PreOrder same_configuration.
Proof.
  split.
  - by intros s.
  - intros s1 s2 s3 (? & ? & ? & ? & ?) (? & ? & ? & ? & ?).
    unfold same_configuration. repeat split; congruence.
Qed.

#[global] Instance same_records_preorder : PreOrder same_records.
Proof.
  split.
  - by intros s.
  - intros s1 s2 s3 (? & ? & ?) (? & ? & ?).
    unfold same_records. repeat split; congruence.
Qed.

Section Preserves.

Context (R : State → State → Prop) `{!PreOrder R}.

Lemma preserves_ret {A} (a : A) : preserves R (mret a).
Proof. by intros s. Qed.

Lemma preserves_raise {A} e : preserves R (@raise A e).
Proof. by intros s. Qed.

Lemma preserves_get : preserves R get.
Proof. by intros s. Qed.

Lemma preserves_modify (f : State → State) :
  (∀ s, R s (f s)) → preserves R (modify f).
Proof. intros Hf s. apply Hf. Qed.

Lemma preserves_bind {A B} (m : M A) (k : A → M B) :
  preserves R m → (∀ a, preserves R (k a)) → preserves R (m ≫= k).
Proof.
  intros Hm Hk s. specialize (Hm s). run.
  destruct (m s) as [[a|e] s']; simpl in *; [|done].
  etrans; [done|apply Hk].
Qed.

Lemma preserves_try {A} (m : M A) (h : Z → string → M A) :
  preserves R m → (∀ code content, preserves R (h code content)) →
  preserves R (try_except_MatrixRequestError m h).
Proof.
  intros Hm Hh s. specialize (Hm s). run.
  destruct (m s) as [[a|[code content| | |]] s']; simpl in *; try done.
  etrans; [done|apply Hh].
Qed.

Lemma preserves_for_each {A} (xs : list A) (f : A → M unit) :
  (∀ x, preserves R (f x)) → preserves R (for_each xs f).
Proof.
  intros Hf. induction xs as [|x xs IH]; simpl.
  - apply preserves_ret.
  - apply preserves_bind; [apply Hf|by intros _].
Qed.

End Preserves.

Lemma resolve_untouched hs ref s :
  same_configuration s (_join_or_get_room hs ref s).2
  ∧ same_records s (_join_or_get_room hs ref s).2.
Proof.
  destruct (_client s) as [client|] eqn:Hclient.
  - rewrite (resolve_unfold _ _ _ _ Hclient).
    destruct (rooms_get ref (rooms client)); [done|].
    destruct (search_aliases _ _ _ _ _) as [[[rooms' fetched_for] reqs] found].
    simpl. destruct found; [done|].
    by destruct (hs_join hs reqs ref) as [[code content]|joined].
  - by rewrite resolve_without_client.
Qed.

Ltac preserved :=
  repeat first
    [ apply preserves_ret; apply _ | apply preserves_raise; apply _
    | apply preserves_get; apply _
    | apply preserves_bind; [apply _| |intros ?]
    | apply preserves_try; [apply _| |intros ? ?]
    | apply preserves_for_each; [apply _|intros ?]
    | apply preserves_modify; by intros
    | (intros ?; apply resolve_untouched)
    | match goal with
      | |- preserves _ (match ?x with _ => _ end) => destruct x
      end ].

Lemma send_message_untouched hs message target_rooms :
  preserves same_configuration (_send_message hs message target_rooms)
  ∧ preserves same_records (_send_message hs message target_rooms).
Proof.
  split; unfold _send_message, send_text, logger, request; preserved.
Qed.

Lemma join_rooms_untouched hs :
  preserves same_configuration (_join_rooms hs)
  ∧ preserves same_records (_join_rooms hs).
Proof.
  split; unfold _join_rooms, add_listener, the_client, logger; preserved.
Qed.

Lemma setup_untouched hs : preserves same_configuration (async_setup_entry hs).
Proof.
  unfold async_setup_entry, init_client, _login, _login_by_token,
    _login_by_password, _store_auth_token, save_json, logger, request.
  preserved.
Qed.

(** The bot keeps what it was built with: neither the setup nor anything
    it does afterwards (joining its rooms, sending, handling messages)
    changes its identity, its password, its listening rooms or its
    command tables. *)
Theorem configuration_never_changes hs activities s :
  same_configuration s (async_setup_entry hs s).2
  ∧ same_configuration s (lifetime hs activities s).
Proof.
  split; [apply setup_untouched|].
  revert s. induction activities as [|a activities IH]; intros s; [done|].
  simpl. etrans; [|apply IH].
  destruct a as [|message target|room event]; simpl.
  - apply join_rooms_untouched.
  - apply send_message_untouched.
  - destruct (handler_fired_shape room event s)
      as (r & word_fired & fired & -> & _). done.
Qed.

(** Joining the listening rooms and sending messages fire no event and
    touch neither the tokens nor the session file. *)
Theorem joining_and_sending_leave_records hs message target_rooms s :
  same_records s (_join_rooms hs s).2
  ∧ same_records s (_send_message hs message target_rooms s).2.
Proof.
  split; [apply join_rooms_untouched|apply send_message_untouched].
Qed.

(** ** More about the resolver *)




(** With a client in place a resolve raises only when the homeserver
    rejects the join: the error carries the code and content of the
    rejection, the join was the last request, and by then no joined room
    answers to the ref. *)
Theorem resolve_raises_only_a_rejected_join hs ref s client e s' :
  _client s = Some client →
  _join_or_get_room hs ref s = (Raise e, s') →
  ∃ code content reqs client',
    e = MatrixRequestError code content
    ∧ requests s' = reqs ++ [CallJoin ref]
    ∧ hs_join hs reqs ref = inl (code, content)
    ∧ _client s' = Some client'
    ∧ room_id <$> rooms client' = room_id <$> rooms client
    ∧ ∀ room, room ∈ rooms client' → ¬ answers_to ref room.
Proof.
  intros Hclient. rewrite (resolve_unfold _ _ _ _ Hclient).
  destruct (rooms_get ref (rooms client)) as [room|] eqn:Hget; [done|].
  pose proof (rooms_get_None _ _ Hget) as Hids.
  destruct (search_aliases_spec hs ref (rooms client) (_aliases_fetched_for s)
              (requests s))
    as (rooms' & new & found & -> & _ & _ & Hsame & _ & Hfound).
  simpl. destruct found as [room|]; [done|].
  destruct Hfound as [Hnone _].
  destruct (hs_join hs _ ref) as [[code content]|joined] eqn:Hjoin; [|done].
  intros [= <- <-].
  eexists code, content, _, _. split; [done|]. simpl.
  split; [done|]. split; [done|]. split; [done|]. split; [done|].
  intros room Hin [Hid|Hal]; simpl in Hin; [|by apply (Hnone room)].
  apply (list_elem_of_fmap_2 room_id) in Hin. rewrite Hsame in Hin.
  apply list_elem_of_fmap in Hin as (room0 & Heq & Hin0).
  apply (Hids room0 Hin0). congruence.
Qed.

Lemma resolve_raises_only_a_rejected_join_example :
  ∃ code content reqs client',
    MatrixRequestError 403 "M_FORBIDDEN" = MatrixRequestError code content
    ∧ requests (_join_or_get_room (homeserver_refusing "#closed:hs")
                  "#closed:hs" joined_bot).2
      = reqs ++ [CallJoin "#closed:hs"]
    ∧ hs_join (homeserver_refusing "#closed:hs") reqs "#closed:hs"
      = inl (code, content)
    ∧ _client (_join_or_get_room (homeserver_refusing "#closed:hs")
                 "#closed:hs" joined_bot).2
      = Some client'
    ∧ room_id <$> rooms client'
      = room_id <$> rooms {| token := "token-1";
                             rooms := [{| room_id := "!room:hs";
                                          aliases := [];
                                          listeners := [] |}] |}
    ∧ ∀ room, room ∈ rooms client' → ¬ answers_to "#closed:hs" room.
Proof.
  apply (resolve_raises_only_a_rejected_join
           (homeserver_refusing "#closed:hs") "#closed:hs" joined_bot
           {| token := "token-1";
              rooms := [{| room_id := "!room:hs"; aliases := [];
                           listeners := [] |}] |}
           (MatrixRequestError 403 "M_FORBIDDEN")
           (_join_or_get_room (homeserver_refusing "#closed:hs")
              "#closed:hs" joined_bot).2);
    reflexivity.
Defined.

(** ** Sending to a room the bot is in *)

(** A message for a target that is the id of a joined room goes out in a
    single request: no join and no request for aliases.  A rejection is
    logged with the target; nothing is raised. *)
Theorem send_to_joined_room hs message target s client room :
  _client s = Some client →
  rooms_get target (rooms client) = Some room →
  _send_message hs message [target] s
  = (Return tt,
     match hs_send_text hs (requests s) target message with
     | None => set_requests (requests s ++ [CallSendText target message]) s
     | Some (code, content) =>
         set_log (log s ++ [LogUnableToDeliver target code content])
           (set_requests (requests s ++ [CallSendText target message]) s)
     end).
Proof.
  intros Hclient Hget. pose proof (rooms_get_Some _ _ _ Hget) as [_ Hid].
  unfold _send_message. simpl. run.
  rewrite (resolve_unfold _ _ _ _ Hclient), Hget.
  unfold send_text. run. simpl. rewrite Hid.
  by destruct (hs_send_text hs (requests s) target message)
    as [[code content]|].
Qed.

Lemma send_to_joined_room_example :
  _send_message homeserver_accepting "hello" ["!room:hs"] joined_bot
  = (Return tt,
     match hs_send_text homeserver_accepting (requests joined_bot)
             "!room:hs" "hello" with
     | None =>
         set_requests (requests joined_bot
                       ++ [CallSendText "!room:hs" "hello"]) joined_bot
     | Some (code, content) =>
         set_log (log joined_bot
                  ++ [LogUnableToDeliver "!room:hs" code content])
           (set_requests (requests joined_bot
                          ++ [CallSendText "!room:hs" "hello"]) joined_bot)
     end).
Proof.
  apply (send_to_joined_room homeserver_accepting "hello" "!room:hs"
           joined_bot
           {| token := "token-1";
              rooms := [{| room_id := "!room:hs"; aliases := [];
                           listeners := [] |}] |}
           {| room_id := "!room:hs"; aliases := []; listeners := [] |});
    reflexivity.
Defined.

(** ** Joining the listening rooms *)





(** What the homeserver and the log have seen of it: the refusal of the
    first room is logged, the second room is joined all the same and gets
    its listener. *)
Lemma join_rooms_example_trace :
  let after := (_join_rooms (homeserver_refusing "#closed:hs")
                  closed_open_bot).2 in
  requests after = [CallJoin "#closed:hs"; CallJoin "#open:hs"]
  ∧ log after = [LogCouldNotJoin "#closed:hs" 403 "M_FORBIDDEN"]
  ∧ rooms <$> _client after
    = Some [{| room_id := "!room:hs"; aliases := [];
               listeners := ["#open:hs"] |}].
Proof. by vm_compute. Qed.

(** The listener of a listening room is bound to the name under which
    the room is configured: with one listening room, the room that the
    resolver returns for it ends up with a listener bound to that name
    (the name the command tables are keyed by), also when the name is an
    alias; a rejected join leaves only the log record. *)
Theorem join_rooms_binds_configured_name hs s client ref :
  _client s = Some client →
  _listening_rooms s = [ref] →
  match _join_or_get_room hs ref s with
  | (Return room, s1) =>
      ∃ s' client' bound,
        _join_rooms hs s = (Return tt, s')
        ∧ _client s' = Some client'
        ∧ log s' = log s
        ∧ requests s' = requests s1
        ∧ bound ∈ rooms client'
        ∧ room_id bound = room_id room
        ∧ last (listeners bound) = Some ref
  | (Raise e, s1) =>
      ∃ code content,
        e = MatrixRequestError code content
        ∧ _join_rooms hs s
          = (Return tt,
             set_log (log s1 ++ [LogCouldNotJoin ref code content]) s1)
  end.
Proof.
  intros Hclient Hlist.
  destruct (resolve_spec hs ref s client Hclient)
    as (res & s1 & client1 & new & joins & Hrun & Hclient1 & _ & _ & _
        & _ & (Hlog & _) & Hres & _).
  unfold _join_rooms. run. cbv beta. rewrite !Hlist. cbn [for_each].
  run. cbv beta. rewrite !Hrun.
  destruct res as [room|e].
  - unfold add_listener, the_client. run. rewrite Hclient1. simpl.
    eexists _, _,
      {| room_id := room_id room; aliases := aliases room;
         listeners := listeners room ++ [ref] |}.
    split; [done|]. simpl. split; [done|]. do 2 (split; [done|]).
    split; [|split; [done|apply last_snoc]].
    apply list_elem_of_fmap. exists room. split; [|done].
    by rewrite decide_True.
  - destruct Hres as (code & content & ->). simpl.
    by exists code, content.
Qed.

Lemma join_rooms_binds_configured_name_example :
  ∃ s' client' bound,
    _join_rooms (homeserver_listing None)
        (set_client (Some {| token := "token-1"; rooms := [] |})
           (__init__ None "@bot:hs" "secret" ["#alias:hs"] []))
      = (Return tt, s')
    ∧ _client s' = Some client'
    ∧ log s' = []
    ∧ requests s' = [CallJoin "#alias:hs"]
    ∧ bound ∈ rooms client'
    ∧ room_id bound = "!room:hs"
    ∧ last (listeners bound) = Some "#alias:hs".
Proof.
  apply (join_rooms_binds_configured_name (homeserver_listing None)
           (set_client (Some {| token := "token-1"; rooms := [] |})
              (__init__ None "@bot:hs" "secret" ["#alias:hs"] []))
           {| token := "token-1"; rooms := [] |} "#alias:hs");
    reflexivity.
Defined.

(** ** [async_setup] *)

(** [async_setup] always stores the rooms and commands of the
    configuration.  It starts the import flow exactly when the homeserver,
    the username, the password and the TLS flag are all configured;
    without a homeserver it returns [True] and starts nothing, whatever
    else is configured; with a homeserver but without one of the others it
    raises [KeyError]. *)
Theorem async_setup_needs_credentials config :
  let matrix_config := default no_matrix_section config in
  data_rooms (async_setup config).2 = cfg_rooms matrix_config
  ∧ data_commands (async_setup config).2 = cfg_commands matrix_config
  ∧ (cfg_homeserver matrix_config = None →
     async_setup config
     = (Return true,
        {| data_rooms := cfg_rooms matrix_config;
           data_commands := cfg_commands matrix_config;
           data_flow := None |}))
  ∧ (is_Some (data_flow (async_setup config).2)
     ↔ is_Some (cfg_homeserver matrix_config)
       ∧ is_Some (cfg_username matrix_config)
       ∧ is_Some (cfg_password matrix_config)
       ∧ is_Some (cfg_verify_ssl matrix_config))
  ∧ ((async_setup config).1 = Raise KeyError
     ↔ is_Some (cfg_homeserver matrix_config)
       ∧ (cfg_username matrix_config = None
          ∨ cfg_password matrix_config = None
          ∨ cfg_verify_ssl matrix_config = None))
  ∧ ((async_setup config).1 = Return true
     ∨ (async_setup config).1 = Raise KeyError).
Proof.
  intros matrix_config. unfold async_setup. fold matrix_config.
  destruct (cfg_homeserver matrix_config) as [homeserver|];
    destruct (cfg_username matrix_config) as [username|];
    destruct (cfg_password matrix_config) as [password|];
    destruct (cfg_verify_ssl matrix_config) as [verify_ssl|]; simpl;
    repeat match goal with
           | |- _ ∧ _ => split
           | |- _ ↔ _ => split
           | |- _ → _ => intros ?
           | H : _ ∧ _ |- _ => destruct H
           | H : _ ∨ _ |- _ => destruct H
           | H : is_Some None |- _ => by destruct H
           | |- is_Some (Some _) => by eexists
           end;
    try done; auto.
Qed.
